(** * dnd-mcp: the rule resolution engine

    A shallow embedding of [src/agents/rules_arbiter.py] (class
    [RulesArbiter]), of the class [CampaignLoader] of
    [src/campaign_loader.py] (all but [list_campaigns]) and of
    [initialize_server] and the
    [switch_campaign], [query_rule], [check_house_rules] and [roll_dice]
    branches of [call_tool] from [dnd_campaign_mcp.py], followed by the
    properties the specification states about them and by further
    properties of the code.

    Conventions of the embedding:
    - a Python [str] is a [list ascii]; a character is a code point in
      0..255, the range on which Python's [str.lower], [str.isspace] and the
      [re] module's [IGNORECASE] and [\s] coincide with the tables below;
    - [str.find] / [str.rfind] return a [Z] with Python's [-1] for not
      found, and the comparisons of the source are made on [Z];
    - [Optional[str]] is [option text]; Python truthiness of such a value
      ([if core_result:]) is [truthy];
    - a [dict] used as a map is a [gmap string _]; a key that the source
      subscripts and that may be missing is an [option] field, and the
      subscript raises [KeyError] on [None];
    - a place where Python can raise returns in the [result] type;
    - the file system is a parameter, a [FileSystem]: the tests and the
      listings of [pathlib] and the method [_read_file], which catches
      what opening and reading a file raise; writing [config.json], the
      limits of the interpreter (memory, the bound of the pattern compiler
      on a repetition count) and a configuration file that cannot be read
      or parsed are not modelled. *)

From Stdlib Require Import ZArith Ascii String.
From Stdlib Require DecimalNat DecimalFacts.
From stdpp Require Import gmap strings list fin_maps.

Abbreviation text := (list ascii).

(** A string literal as a text. *)
Definition T (s : string) : text := list_ascii_of_string s.

(** ** Character classes of Python on code points 0..255 *)

(** [str.isspace] / the [re] class [\s] for a [str] pattern. *)
Definition is_space (c : ascii) : bool :=
  let n := nat_of_ascii c in
  ((9 <=? n) && (n <=? 13)) || ((28 <=? n) && (n <=? 32))
  || (n =? 133) || (n =? 160).

(** [str.lower] on one character of the code points 0..255; on this range
    it is also the folding under which [re.IGNORECASE] compares a
    character of a pattern with a character of the text. *)
Definition lower_char (c : ascii) : ascii :=
  let n := nat_of_ascii c in
  if ((65 <=? n) && (n <=? 90))
     || ((192 <=? n) && (n <=? 222) && negb (n =? 215))
  then ascii_of_nat (n + 32) else c.

Definition lower (t : text) : text := map lower_char t.

Definition is_hash (c : ascii) : bool := bool_decide (c = "#"%char).
Definition is_newline (c : ascii) : bool := bool_decide (c = "010"%char).
Definition is_quote (c : ascii) : bool := bool_decide (c = "034"%char).

(** ** String primitives *)

Definition len (t : text) : Z := Z.of_nat (length t).

(** The clamping Python applies to a slice bound. *)
Definition norm_index (t : text) (i : Z) : nat :=
  Z.to_nat (if (i <? 0)%Z then Z.max 0 (len t + i) else Z.min i (len t)).

(** [t[i:]], [t[:j]] and [t[i:j]]. *)
Definition slice_from (t : text) (i : Z) : text := drop (norm_index t i) t.
Definition slice_to (t : text) (j : Z) : text := take (norm_index t j) t.
Definition slice (t : text) (i j : Z) : text :=
  take (norm_index t j - norm_index t i) (drop (norm_index t i) t).

(** [t.startswith(p)]. *)
Fixpoint starts_with (p t : text) : bool :=
  match p, t with
  | [], _ => true
  | _ :: _, [] => false
  | a :: p', b :: t' => bool_decide (a = b) && starts_with p' t'
  end.

(** Lowest index at or after [i] (the offset of [t]) where [sub] occurs. *)
Fixpoint find_from (sub t : text) (i : nat) : option nat :=
  if starts_with sub t then Some i
  else match t with
       | [] => None
       | _ :: t' => find_from sub t' (S i)
       end.

(** Highest such index. *)
Fixpoint rfind_from (sub t : text) (i : nat) : option nat :=
  match t with
  | [] => if starts_with sub [] then Some i else None
  | _ :: t' =>
      match rfind_from sub t' (S i) with
      | Some j => Some j
      | None => if starts_with sub t then Some i else None
      end
  end.

(** [t.find(sub)] and [t.rfind(sub)]. *)
Definition find (t sub : text) : Z :=
  match find_from sub t 0 with Some i => Z.of_nat i | None => (-1)%Z end.
Definition rfind (t sub : text) : Z :=
  match rfind_from sub t 0 with Some i => Z.of_nat i | None => (-1)%Z end.

(** [sub in t]. *)
Definition contains (t sub : text) : bool :=
  match find_from sub t 0 with Some _ => true | None => false end.

(** [t.strip()]. *)
Fixpoint lstrip (t : text) : text :=
  match t with
  | c :: t' => if is_space c then lstrip t' else t
  | [] => []
  end.
Definition rstrip (t : text) : text := rev (lstrip (rev t)).
Definition strip (t : text) : text := rstrip (lstrip t).

(** Python truthiness of an [Optional[str]]: neither [None] nor the
    empty string. *)
Definition truthy (o : option text) : bool :=
  match o with Some (_ :: _) => true | _ => false end.

(** ** Regular expressions of the source *)

(** [re.compile(re.escape(term), re.IGNORECASE).search(t)]: the span
    [(match.start(), match.end())] of the first case-insensitive literal
    occurrence of [term]. *)
Definition search_escaped_ci (term t : text) : option (nat * nat) :=
  match find_from (lower term) (lower t) 0 with
  | Some i => Some (i, i + length term)
  | None => None
  end.

(** Number of leading characters of [t] in the class [P]: what a greedy
    [P+] or [P*] consumes first. *)
Fixpoint span_len (P : ascii -> bool) (t : text) : nat :=
  match t with
  | c :: t' => if P c then S (span_len P t') else 0
  | [] => 0
  end.

(** A literal under [re.IGNORECASE] at the head of [t]. *)
Definition literal_ci (lit t : text) : bool :=
  starts_with (lower lit) (lower t).

(** [search] of an unanchored pattern: the matcher [m] gives the length of
    the match at the head of its argument; positions are tried from left to
    right, the end of the text included. *)
Fixpoint search_from (m : text -> option nat) (t : text) (i : nat)
  : option (nat * nat) :=
  match m t with
  | Some n => Some (i, i + n)
  | None =>
      match t with
      | [] => None
      | _ :: t' => search_from m t' (S i)
      end
  end.

(** [search] of a pattern that begins with [^] under [re.MULTILINE]: the
    matcher is tried only at the start of the searched string and right
    after a newline; [bol] says whether the current position is such a
    place. *)
Fixpoint search_line_start (m : text -> option nat) (t : text) (bol : bool)
  (i : nat) : option (nat * nat) :=
  match (if bol then m t else None) with
  | Some n => Some (i, i + n)
  | None =>
      match t with
      | [] => None
      | c :: t' => search_line_start m t' (is_newline c) (S i)
      end
  end.

(** [findall] of a pattern with one group whose matches are never empty:
    [m] gives the group and the length of the match at the head of its
    argument; after a match the scan resumes behind it ([skip] counts the
    characters of the match still to pass). With [anchored] the pattern
    begins with [^] under [re.MULTILINE]. *)
Fixpoint findall_from (m : text -> option (text * nat)) (anchored : bool)
  (t : text) (bol : bool) (skip : nat) : list text :=
  match skip with
  | S s =>
      match t with
      | [] => []
      | c :: t' => findall_from m anchored t' (is_newline c) s
      end
  | 0 =>
      match (if implb anchored bol then m t else None) with
      | Some (g, n) =>
          g :: match t with
               | [] => []
               | c :: t' => findall_from m anchored t' (is_newline c) (n - 1)
               end
      | None =>
          match t with
          | [] => []
          | c :: t' => findall_from m anchored t' (is_newline c) 0
          end
      end
  end.

(** *** [#+\s*NAME] with [re.IGNORECASE] *)

(** [\s*NAME] with [j] whitespace characters taken, giving them back one
    at a time; the result is the length matched. *)
Fixpoint ws_then_name (name t : text) (j : nat) : option nat :=
  if literal_ci name (drop j t) then Some (j + length name)
  else match j with
       | 0 => None
       | S j' => ws_then_name name t j'
       end.

(** [#+] with [k] hashes taken, giving them back one at a time. *)
Fixpoint hashes_then_name (name t : text) (k : nat) : option nat :=
  match k with
  | 0 => None
  | S k' =>
      match ws_then_name name (drop k t) (span_len is_space (drop k t)) with
      | Some n => Some (k + n)
      | None => hashes_then_name name t k'
      end
  end.

Definition match_heading (name t : text) : option nat :=
  hashes_then_name name t (span_len is_hash t).

(** [re.match(r'#+', t)]: the length of the group, [None] without a hash. *)
Definition match_hashes (t : text) : option nat :=
  match span_len is_hash t with
  | 0 => None
  | n => Some n
  end.

(** *** [^#{1,level}\s] with [re.MULTILINE] (the anchor is in
    [search_line_start]) *)

Fixpoint hashes_then_space (t : text) (k : nat) : option nat :=
  match k with
  | 0 => None
  | S k' =>
      match drop k t with
      | c :: _ => if is_space c then Some (S k) else hashes_then_space t k'
      | [] => hashes_then_space t k'
      end
  end.

Definition match_next_heading (level : nat) (t : text) : option nat :=
  hashes_then_space t (Nat.min (span_len is_hash t) level).

(** *** [^#+\s+(.+)$] with [re.MULTILINE] *)

(** [.] without [re.DOTALL]. *)
Definition is_dot (c : ascii) : bool := negb (is_newline c).

(** [\s+(.+)$] with [j] whitespace characters taken: the group is the run
    of non-newline characters that follows, which [$] then closes. *)
Fixpoint ws_then_title (t : text) (j : nat) : option (text * nat) :=
  match j with
  | 0 => None
  | S j' =>
      let m := span_len is_dot (drop j t) in
      if (0 <? m) then Some (take m (drop j t), j + m)
      else ws_then_title t j'
  end.

Fixpoint hashes_then_title (t : text) (k : nat) : option (text * nat) :=
  match k with
  | 0 => None
  | S k' =>
      match ws_then_title (drop k t) (span_len is_space (drop k t)) with
      | Some (g, n) => Some (g, k + n)
      | None => hashes_then_title t k'
      end
  end.

Definition match_category_line (t : text) : option (text * nat) :=
  hashes_then_title t (span_len is_hash t).

(** *** A double quote, [[^QUOTE]+] in a group, a double quote *)

(** The class and the closing quote, with [m] characters taken by the
    class. *)
Fixpoint body_then_quote (t : text) (m : nat) : option (text * nat) :=
  match m with
  | 0 => None
  | S m' =>
      match drop m t with
      | c :: _ =>
          if is_quote c then Some (take m t, S (S m))
          else body_then_quote t m'
      | [] => body_then_quote t m'
      end
  end.

Definition match_quoted (t : text) : option (text * nat) :=
  match t with
  | q :: t' =>
      if is_quote q
      then body_then_quote t' (span_len (fun c => negb (is_quote c)) t')
      else None
  | [] => None
  end.

(** ** RulesArbiter._search_in_text *)

Definition _search_in_text (search_term t : text) : option text :=
  if bool_decide (t = []) || bool_decide (search_term = []) then None
  else
    match search_escaped_ci search_term t with
    | None => None
    | Some (mstart, mend) =>
        let start := Z.max 0 (Z.of_nat mstart - 300) in
        let end_ := Z.min (len t) (Z.of_nat mend + 300) in
        let context := slice t start end_ in
        let first_period := find context (T ". ") in
        let context :=
          if (0 <? first_period)%Z && (first_period <? 100)%Z
          then slice_from context (first_period + 2)
          else context in
        let last_period := rfind context (T ". ") in
        let context :=
          if (len context - 100 <? last_period)%Z
          then slice_to context (last_period + 1)
          else context in
        Some (strip context)
    end.


(** ** RulesArbiter._extract_section *)

Inductive exception := AttributeError | KeyError | ValueError.

Definition result (A : Type) : Type := (exception + A)%type.

(** The indices of this function are all within the text, so its slices are
    [take] and [drop]. [.group()] on the result of [re.match] raises
    [AttributeError] when there is no match. *)
Definition _extract_section (t section_name : text) : result (option text) :=
  match search_from (match_heading section_name) t 0 with
  | None => inr None
  | Some (start, mend) =>
      match match_hashes (drop start t) with
      | None => inl AttributeError
      | Some heading_level =>
          let rest_of_text := drop mend t in
          let end_ :=
            match search_line_start (match_next_heading heading_level)
                    rest_of_text true 0 with
            | Some (nstart, _) => mend + nstart
            | None => length t
            end in
          inr (Some (strip (take (end_ - start) (drop start t))))
      end
  end.

(** ** RulesArbiter._extract_categories *)

Definition _extract_categories (t : text) : list text :=
  findall_from match_category_line true t true 0.

(** ** RulesArbiter._extract_keywords *)

Definition dnd_terms : list text :=
  map T
    ["advantage"; "disadvantage"; "attack"; "damage"; "spell"; "casting";
     "initiative"; "combat"; "action"; "bonus action"; "reaction";
     "saving throw"; "ability check"; "skill check"; "critical"; "rest";
     "concentration"; "death save"; "hit points"; "armor class"]%string.

(** The vocabulary scan: the loop appends each term found in the lowered
    text, in the order of [dnd_terms]. *)
Definition vocabulary_hits (t : text) : list text :=
  List.filter (contains (lower t)) dnd_terms.

(** [re.findall] of the double-quoted phrases of the text. *)
Definition quoted_phrases (t : text) : list text :=
  findall_from match_quoted false t true 0.

Definition _extract_keywords (t : text) : list text :=
  let found_keywords := vocabulary_hits t in
  let quoted := quoted_phrases t in
  let found_keywords := found_keywords ++ take 3 quoted in
  take 5 found_keywords.

(** ** The arbiter *)

(** One loaded file of a campaign: the dict with the keys [path] and
    [content] that the loader stores for a file it could read. *)
Record FileEntry := { path : text; content : text }.

#[global] Instance FileEntry_eq_dec : EqDecision FileEntry.
Proof. solve_decision. Defined.

(** What the loader stores under a key of [files]: the dict of one file,
    or, for a directory, the dict of its markdown files, keyed by the
    path of each file relative to the directory. *)
Inductive Entry :=
| File (f : FileEntry)
| Directory (files : gmap string FileEntry).

(** The campaign data handed to the arbiter. Only the keys the arbiter
    reads are kept; both are read with [dict.get] and may be missing. *)
Record CampaignData := {
  cd_name : option text;
  cd_files : option (gmap string Entry)
}.

Record RulesArbiter := {
  campaign_data : CampaignData;
  core_rules : gmap string text;
  campaign_name : text;
  house_rules : text
}.

(** The subscript [content] of an entry: the dict of a file has the key;
    the keys of the dict of a directory are the relative paths of files
    that match [*.md], none of them is [content], and the subscript raises
    [KeyError]. *)
Definition entry_content (entry : Entry) : result text :=
  match entry with
  | File f => inr (content f)
  | Directory _ => inl KeyError
  end.

Definition _extract_house_rules (cd : CampaignData) : result text :=
  let files := default ∅ (cd_files cd) in
  match files !! "houseRules"%string with
  | Some entry => entry_content entry
  | None =>
      match files !! "rules"%string with
      | Some entry => entry_content entry
      | None => inr []
      end
  end.

(** [RulesArbiter.__init__]; it raises what [_extract_house_rules]
    raises. *)
Definition new_RulesArbiter (cd : CampaignData) (core : gmap string text)
  : result RulesArbiter :=
  match _extract_house_rules cd with
  | inl e => inl e
  | inr house_rules =>
      inr {| campaign_data := cd;
             core_rules := core;
             campaign_name := default (T "Unknown") (cd_name cd);
             house_rules := house_rules |}
  end.

(** The text every core search runs on: the entry [house-rules] of the core
    rules, read with [dict.get] and the empty string as default. *)
Definition core_text (self : RulesArbiter) : text :=
  default [] (core_rules self !! "house-rules"%string).

(** *** query_rule *)

Record QueryResult := {
  qr_ruleName : text;
  qr_context : text;
  qr_coreRule : option text;
  qr_houseRule : option text;
  qr_recommendation : text;
  qr_sources : list text
}.

(** The excerpt held by a field that tested true. *)
Definition excerpt (o : option text) : text := default [] o.

Definition query_rule (self : RulesArbiter) (rule_name context : text)
  : QueryResult :=
  let core_result := _search_in_text rule_name (core_text self) in
  let coreRule := if truthy core_result then core_result else None in
  let sources := if truthy core_result then [T "Core Rules"] else [] in
  let house_result := _search_in_text rule_name (house_rules self) in
  let houseRule := if truthy house_result then house_result else None in
  let sources :=
    if truthy house_result
    then sources ++ [campaign_name self ++ T " House Rules"]
    else sources in
  let recommendation :=
    if truthy houseRule
    then T "Use campaign-specific rule: " ++ take 200 (excerpt houseRule)
         ++ T "..."
    else if truthy coreRule
    then T "Use core rule: " ++ take 200 (excerpt coreRule) ++ T "..."
    else T "No specific rule found for '" ++ rule_name
         ++ T "'. Use standard 5e rules or make a ruling." in
  {| qr_ruleName := rule_name;
     qr_context := context;
     qr_coreRule := coreRule;
     qr_houseRule := houseRule;
     qr_recommendation := recommendation;
     qr_sources := sources |}.

(** *** check_house_rules *)

(** The two shapes of the returned dict: [campaign], [houseRules],
    [categories], or [campaign], [category], [rules], [fullRules]. *)
Inductive HouseRulesResult :=
| HouseRulesOverview (campaign houseRules : text) (categories : list text)
| HouseRulesCategory (campaign category rules fullRules : text).

Definition check_house_rules (self : RulesArbiter)
  (rule_category : option text) : result HouseRulesResult :=
  match house_rules self with
  | [] =>
      inr (HouseRulesOverview (campaign_name self)
             (T "No campaign-specific house rules defined. Using core rules.")
             [])
  | _ :: _ =>
      if truthy rule_category then
        let category := excerpt rule_category in
        match _extract_section (house_rules self) category with
        | inl e => inl e
        | inr section =>
            inr (HouseRulesCategory (campaign_name self) category
                   (if truthy section then excerpt section
                    else T "No rules found for category: " ++ category)
                   (house_rules self))
        end
      else
        inr (HouseRulesOverview (campaign_name self) (house_rules self)
               (_extract_categories (house_rules self)))
  end.

(** *** compare_rules *)

Record Difference := {
  aspect : text;
  coreRule : text;
  campaignRule : text;
  useCampaignRule : bool
}.

Record CompareResult := {
  cmp_ruleName : text;
  coreDefined : bool;
  campaignOverride : bool;
  differences : list Difference;
  cmp_recommendation : text
}.

Definition compare_rules (self : RulesArbiter) (rule_name : text)
  : CompareResult :=
  let core_search := _search_in_text rule_name (core_text self) in
  let house_search := _search_in_text rule_name (house_rules self) in
  let differences :=
    if truthy core_search && truthy house_search
       && negb (bool_decide (core_search = house_search))
    then [ {| aspect := rule_name;
              coreRule := excerpt core_search;
              campaignRule := excerpt house_search;
              useCampaignRule := true |} ]
    else [] in
  {| cmp_ruleName := rule_name;
     coreDefined := truthy core_search;
     campaignOverride := truthy house_search;
     differences := differences;
     cmp_recommendation :=
       if truthy house_search then T "Use campaign rule"
       else if truthy core_search then T "Use core rule"
       else T "Use standard 5e" |}.

(** *** resolve_edge_case *)

Record RelatedRule := {
  source : text;
  keyword : text;
  rule_text : text
}.

Record EdgeCaseResult := {
  situation : text;
  relatedRules : list RelatedRule;
  suggestion : text;
  note : text
}.

Definition newline : text := ["010"%char].

Definition _generate_ruling_suggestion (situation : text)
  (related_rules : list RelatedRule) : text :=
  match related_rules with
  | [] =>
      T "No related rules found. Suggest using standard 5e mechanics or making a balanced ruling that favors narrative over mechanics."
  | _ :: _ =>
      let suggestion := T "Based on related rules:" ++ newline in
      let suggestion :=
        fold_left
          (fun suggestion rule =>
             suggestion ++ T "- " ++ source rule ++ T ": " ++ rule_text rule
             ++ T "..." ++ newline)
          (take 2 related_rules) suggestion in
      suggestion ++ newline
      ++ T "Suggested ruling: Apply the principles above to this situation. Favor rulings that keep the game moving and are fair to all players."
  end.

(** One turn of the keyword loop: the entries it appends. *)
Definition related_for (self : RulesArbiter) (kw : text) : list RelatedRule :=
  let core := _search_in_text kw (core_text self) in
  let house := _search_in_text kw (house_rules self) in
  (if truthy core
   then [ {| source := T "Core Rules"; keyword := kw;
             rule_text := take 150 (excerpt core) |} ]
   else [])
  ++
  (if truthy house
   then [ {| source := T "House Rules"; keyword := kw;
             rule_text := take 150 (excerpt house) |} ]
   else []).

Definition resolve_edge_case (self : RulesArbiter) (situation : text)
  : EdgeCaseResult :=
  let keywords := _extract_keywords situation in
  let related_rules :=
    fold_left (fun related_rules kw => related_rules ++ related_for self kw)
      keywords [] in
  {| situation := situation;
     relatedRules := related_rules;
     suggestion := _generate_ruling_suggestion situation related_rules;
     note := T "This is a suggested ruling. DM has final authority." |}.

(** *** The four resolver operations behind one entry point *)

Inductive Operation :=
| OpQueryRule (rule_name context : text)
| OpCheckHouseRules (rule_category : option text)
| OpCompareRules (rule_name : text)
| OpResolveEdgeCase (situation : text).

Inductive OperationResult :=
| ResQueryRule (r : QueryResult)
| ResCheckHouseRules (r : HouseRulesResult)
| ResCompareRules (r : CompareResult)
| ResResolveEdgeCase (r : EdgeCaseResult).

Definition run_operation (self : RulesArbiter) (op : Operation)
  : result OperationResult :=
  match op with
  | OpQueryRule rule_name context =>
      inr (ResQueryRule (query_rule self rule_name context))
  | OpCheckHouseRules rule_category =>
      match check_house_rules self rule_category with
      | inl e => inl e
      | inr r => inr (ResCheckHouseRules r)
      end
  | OpCompareRules rule_name =>
      inr (ResCompareRules (compare_rules self rule_name))
  | OpResolveEdgeCase situation =>
      inr (ResResolveEdgeCase (resolve_edge_case self situation))
  end.

(** ** The configuration and the file system *)

(** An entry of the [campaigns] dict of the configuration. Every key may
    be missing from the file; a key that is present holds a value of the
    type the loader expects (a string, and for [paths] a dict of
    strings). *)
Record CampaignConfig := {
  cfg_name : option text;
  cfg_description : option text;
  cfg_type : option text;
  cfg_path : option text;
  cfg_paths : option (gmap string text)
}.

(** The parsed [config.json]. The dict [campaigns] is subscripted by every
    method of the loader that reads a campaign, the first time when the
    server starts; the record holds the configurations that have it. *)
Record Config := {
  campaigns : gmap string CampaignConfig;
  activeCampaign : option string;
  coreRulesPath : option text
}.

Record CampaignLoader := {
  config : Config;
  active_campaign_name : string
}.

(** A path below the loader's [base_path] (the folder of [config.json]),
    as the list of the strings joined to it with the operator [/]. *)
Definition Path : Type := list text.

(** What the loader asks of [pathlib] and of the files: the three tests,
    the method [_read_file] (the text of the file, [None] when opening or
    reading it raises, which the method catches), the files that
    [glob] and [rglob] yield for the pattern [*.md], each with its stem
    and with its path relative to the directory, and [str] of a path.
    The campaign files do not change while the server runs, and
    [config.json] is not one of them. *)
Record FileSystem := {
  is_file : Path -> bool;
  is_dir : Path -> bool;
  path_exists : Path -> bool;
  _read_file : Path -> option text;
  glob_md : Path -> list (string * Path);
  rglob_md : Path -> list (string * Path);
  path_str : Path -> text
}.

(** ** CampaignLoader *)

(** [CampaignLoader.__init__] on the parsed configuration file: the active
    campaign is the [activeCampaign] entry, read with [dict.get] and the
    default [fragments]. *)
Definition new_CampaignLoader (file : Config) : CampaignLoader :=
  {| config := file;
     active_campaign_name :=
       default "fragments"%string (activeCampaign file) |}.

(** [switch_campaign] returns its boolean and leaves the loader and the
    file as they are after the call; the call changes the entry
    [activeCampaign] of [self.config], and [json.dump] writes
    [self.config]. *)
Definition switch_campaign (self : CampaignLoader) (file : Config)
  (name : string) : bool * CampaignLoader * Config :=
  match campaigns (config self) !! name with
  | None => (false, self, file)
  | Some _ =>
      let config' :=
        {| campaigns := campaigns (config self);
           activeCampaign := Some name;
           coreRulesPath := coreRulesPath (config self) |} in
      (true, {| config := config'; active_campaign_name := name |}, config')
  end.

Section Loader.

Variable fs : FileSystem.

(** The dict of a file that was read, stored only [if content:]. *)
Definition file_dict (file_path : Path) : option FileEntry :=
  match _read_file fs file_path with
  | Some (c :: content) =>
      Some {| path := path_str fs file_path; content := c :: content |}
  | _ => None
  end.

(** The loop over [rglob] that both loaders run on a directory: the dict
    of the markdown files that could be read and are not empty. *)
Definition directory_files (dir_path : Path) : gmap string FileEntry :=
  fold_left
    (fun files '(relative, file_path) =>
       match file_dict file_path with
       | Some entry => <[relative := entry]> files
       | None => files
       end)
    (rglob_md fs dir_path) ∅.

(** One turn of the loop of [_load_legacy_campaign]: what is stored under
    the key, if anything. *)
Definition legacy_entry (relative_path : text) : option Entry :=
  let full_path := [relative_path] in
  if is_file fs full_path then File <$> file_dict full_path
  else if is_dir fs full_path then Some (Directory (directory_files full_path))
  else None.

Definition _load_legacy_campaign (config : CampaignConfig)
  : result CampaignData :=
  match cfg_name config with
  | None => inl KeyError
  | Some name =>
      match cfg_paths config with
      | None => inl KeyError
      | Some paths =>
          inr {| cd_name := Some name;
                 cd_files := Some (omap legacy_entry paths) |}
      end
  end.

Definition standard_files : list (string * text) :=
  [("info", T "campaign-info.md"); ("universe", T "universe.md");
   ("houseRules", T "house-rules.md")]%string.

Definition directories : list (string * text) :=
  [("npcs", T "npcs"); ("sessions", T "sessions"); ("players", T "players");
   ("story", T "story"); ("resources", T "resources")]%string.

Definition _load_standard_campaign (config : CampaignConfig)
  : result CampaignData :=
  match cfg_path config with
  | None => inl KeyError
  | Some p =>
      let campaign_path := [p] in
      match cfg_name config with
      | None => inl KeyError
      | Some name =>
          let files :=
            fold_left
              (fun files '(key, filename) =>
                 let file_path := campaign_path ++ [filename] in
                 if path_exists fs file_path then
                   match file_dict file_path with
                   | Some entry => <[key := File entry]> files
                   | None => files
                   end
                 else files)
              standard_files ∅ in
          let files :=
            fold_left
              (fun files '(key, dirname) =>
                 let dir_path := campaign_path ++ [dirname] in
                 if path_exists fs dir_path then
                   let dir_files := directory_files dir_path in
                   if bool_decide (dir_files = ∅) then files
                   else <[key := Directory dir_files]> files
                 else files)
              directories files in
          inr {| cd_name := Some name; cd_files := Some files |}
      end
  end.

(** [load_campaign()] without argument: the active campaign. *)
Definition load_campaign (self : CampaignLoader) : result CampaignData :=
  match campaigns (config self) !! active_campaign_name self with
  | None => inl ValueError
  | Some campaign_config =>
      match cfg_type campaign_config with
      | None => inl KeyError
      | Some type =>
          if bool_decide (type = T "legacy")
          then _load_legacy_campaign campaign_config
          else _load_standard_campaign campaign_config
      end
  end.

Definition load_core_rules (self : CampaignLoader)
  : result (gmap string text) :=
  match coreRulesPath (config self) with
  | None => inl KeyError
  | Some p =>
      let core_path := [p] in
      inr (if path_exists fs core_path then
             fold_left
               (fun rules '(stem, file_path) =>
                  match _read_file fs file_path with
                  | Some (c :: content) => <[stem := c :: content]> rules
                  | _ => rules
                  end)
               (glob_md fs core_path) ∅
           else ∅)
  end.

End Loader.

(** The dict returned by [get_campaign_info]. *)
Record CampaignInfo := {
  info_name : string;
  info_displayName : text;
  info_description : text;
  info_type : text;
  info_active : bool
}.

(** The truthiness test of [campaign_name or self.active_campaign_name]
    on an optional identifier. *)
Definition name_or (campaign_name : option string) (active : string)
  : string :=
  match campaign_name with
  | Some (String c s) => String c s
  | _ => active
  end.

Definition get_campaign_info (self : CampaignLoader)
  (campaign_name : option string) : result CampaignInfo :=
  let name := name_or campaign_name (active_campaign_name self) in
  match campaigns (config self) !! name with
  | None => inl ValueError
  | Some config =>
      match cfg_name config with
      | None => inl KeyError
      | Some displayName =>
          match cfg_type config with
          | None => inl KeyError
          | Some type =>
              inr {| info_name := name;
                     info_displayName := displayName;
                     info_description := default [] (cfg_description config);
                     info_type := type;
                     info_active :=
                       bool_decide (name = active_campaign_name self) |}
          end
      end
  end.

(** ** The server *)

(** The process state of [dnd_campaign_mcp.py] (its globals) together with
    the content of the configuration file on disk. *)
Record Server := {
  campaign_loader : CampaignLoader;
  config_file : Config;
  current_campaign : CampaignData;
  server_core_rules : gmap string text;
  rules_arbiter : RulesArbiter
}.

(** What the [switch_campaign] tool call answers: the text with the check
    mark and the display name, the text with the cross and the identifier,
    or the [Error: ...] text of the [except] clause. *)
Inductive SwitchAnswer :=
| Switched (display_name : option text)
| CampaignNotFound (name : string)
| ToolError (e : exception).

Section Server.

Variable fs : FileSystem.

(** [initialize_server] on the parsed configuration file: the loader, the
    core rules, the active campaign and the arbiter, in this order; an
    exception aborts the start. *)
Definition initialize_server (file : Config) : result Server :=
  let loader := new_CampaignLoader file in
  match load_core_rules fs loader with
  | inl e => inl e
  | inr core =>
      match load_campaign fs loader with
      | inl e => inl e
      | inr campaign =>
          match new_RulesArbiter campaign core with
          | inl e => inl e
          | inr arbiter =>
              inr {| campaign_loader := loader;
                     config_file := file;
                     current_campaign := campaign;
                     server_core_rules := core;
                     rules_arbiter := arbiter |}
          end
      end
  end.

(** The [switch_campaign] branch of [call_tool]. The two globals are
    assigned one after the other: an exception of [load_campaign] leaves
    both as they were, one of [RulesArbiter] leaves the old arbiter next to
    the new campaign; the loader and the file are switched by then. *)
Definition call_tool_switch_campaign (st : Server) (name : string)
  : SwitchAnswer * Server :=
  let '(success, loader, file) :=
    switch_campaign (campaign_loader st) (config_file st) name in
  let st := {| campaign_loader := loader;
               config_file := file;
               current_campaign := current_campaign st;
               server_core_rules := server_core_rules st;
               rules_arbiter := rules_arbiter st |} in
  if success then
    match load_campaign fs loader with
    | inl e => (ToolError e, st)
    | inr campaign =>
        let st := {| campaign_loader := loader;
                     config_file := file;
                     current_campaign := campaign;
                     server_core_rules := server_core_rules st;
                     rules_arbiter := rules_arbiter st |} in
        match new_RulesArbiter campaign (server_core_rules st) with
        | inl e => (ToolError e, st)
        | inr arbiter =>
            (Switched (cd_name campaign),
             {| campaign_loader := loader;
                config_file := file;
                current_campaign := campaign;
                server_core_rules := server_core_rules st;
                rules_arbiter := arbiter |})
        end
    end
  else (CampaignNotFound name, st).

(** The [query_rule] branch of [call_tool], before rendering. *)
Definition call_tool_query_rule (st : Server) (rule_name context : text)
  : QueryResult :=
  query_rule (rules_arbiter st) rule_name context.


End Server.

(** ** The check_house_rules branch of call_tool *)

(** What the branch answers: the rendered text, or the [Error: ...] text
    of the [except] clause, for a key missing from a dict or for another
    exception. *)
Inductive ToolFailure :=
| MissingKey (key : string)
| Raised (e : exception).

Inductive ToolAnswer :=
| ToolText (output : text)
| ToolFailed (failure : ToolFailure).

(** [result[key]] on the dict returned by [check_house_rules]. *)
Definition house_rules_result_get (r : HouseRulesResult) (key : string)
  : option text :=
  match r with
  | HouseRulesOverview campaign houseRules _ =>
      if bool_decide (key = "campaign"%string) then Some campaign
      else if bool_decide (key = "houseRules"%string) then Some houseRules
      else None
  | HouseRulesCategory campaign category rules fullRules =>
      if bool_decide (key = "campaign"%string) then Some campaign
      else if bool_decide (key = "category"%string) then Some category
      else if bool_decide (key = "rules"%string) then Some rules
      else if bool_decide (key = "fullRules"%string) then Some fullRules
      else None
  end.

Definition call_tool_check_house_rules (st : Server)
  (arguments : gmap string text) : ToolAnswer :=
  let category := arguments !! "category"%string in
  match check_house_rules (rules_arbiter st) category with
  | inl e => ToolFailed (Raised e)
  | inr result =>
      match house_rules_result_get result "campaign" with
      | None => ToolFailed (MissingKey "campaign")
      | Some campaign =>
          let output :=
            T "# House Rules: " ++ campaign ++ newline ++ newline in
          if truthy category then
            let output :=
              output ++ T "## Category: " ++ excerpt category
              ++ newline ++ newline in
            match house_rules_result_get result "rules" with
            | None => ToolFailed (MissingKey "rules")
            | Some rules => ToolText (output ++ rules)
            end
          else
            match house_rules_result_get result "houseRules" with
            | None => ToolFailed (MissingKey "houseRules")
            | Some houseRules => ToolText (output ++ houseRules)
            end
      end
  end.

(** ** The roll_dice branch of call_tool *)

(** The class [\d] of a [str] pattern on code points 0..255, the value of
    a digit, and the value [int] gives a run of digits. *)
Definition is_digit (c : ascii) : bool :=
  let n := nat_of_ascii c in (48 <=? n) && (n <=? 57).
Definition digit_value (c : ascii) : nat := nat_of_ascii c - 48.
Definition int_of_digits (ds : text) : nat :=
  fold_left (fun acc c => 10 * acc + digit_value c) ds 0.

Definition is_sign (c : ascii) : bool :=
  bool_decide (c = "+"%char) || bool_decide (c = "-"%char).

(** *** [(\d+)d(\d+)([+-]\d+)?] with [re.match] *)

(** The optional third group at the head of [t]: a sign and the digits
    behind it, as many as there are and at least one. *)
Definition match_modifier (t : text) : option text :=
  match t with
  | s :: r =>
      if is_sign s && (0 <? span_len is_digit r)
      then Some (s :: take (span_len is_digit r) r)
      else None
  | [] => None
  end.

(** The second group and the third behind the [d]: the digits take all
    there are, and the pattern ends behind the optional group. *)
Definition match_size (t : text) : option (text * option text) :=
  let m := span_len is_digit t in
  if 0 <? m then Some (take m t, match_modifier (drop m t)) else None.

(** The first group with [k] digits taken, giving them back one at a
    time, and the literal [d]. *)
Fixpoint count_then_d (t : text) (k : nat)
  : option (text * text * option text) :=
  match k with
  | 0 => None
  | S k' =>
      match drop k t with
      | c :: r =>
          if bool_decide (c = "d"%char) then
            match match_size r with
            | Some (size, modifier) => Some (take k t, size, modifier)
            | None => count_then_d t k'
            end
          else count_then_d t k'
      | [] => count_then_d t k'
      end
  end.

(** The groups of the match, [None] without a match. *)
Definition match_dice (t : text) : option (text * text * option text) :=
  count_then_d t (span_len is_digit t).

(** One call of the local function [roll]: the rolls and their sum plus
    the modifier. *)
Record DiceRoll := { dr_rolls : list nat; dr_total : Z }.

(** What the branch answers, before rendering: the invalid-expression
    text, the [Error: ...] text of the [except] clause, the rolls with the
    modifier and the total, or, with advantage ([true]) or disadvantage
    ([false]), the two rolls and the final one. *)
Inductive DiceAnswer :=
| InvalidDice
| DiceError (e : exception)
| PlainRoll (r : DiceRoll) (modifier : Z)
| TwoRolls (advantage : bool) (roll1 roll2 final : DiceRoll).

Section Dice.

(** The limit of [int] on the number of digits of a string
    ([sys.get_int_max_str_digits()]); 0 stands for an interpreter without
    a limit. *)
Variable max_str_digits : nat.

(** The value returned by the call number [i] of [random.randint] during
    the tool call. *)
Variable rng : nat -> nat.

(** [int] on a run of digits, and on a sign followed by digits. *)
Definition int_of_text (ds : text) : result nat :=
  if (0 <? max_str_digits) && (max_str_digits <? length ds)
  then inl ValueError
  else inr (int_of_digits ds).

Definition int_of_signed (g : text) : result Z :=
  match g with
  | s :: ds =>
      match int_of_text ds with
      | inl e => inl e
      | inr n =>
          inr (if bool_decide (s = "-"%char) then (- Z.of_nat n)%Z
               else Z.of_nat n)
      end
  | [] => inl ValueError
  end.

(** The dice count, the die size and the modifier of an expression;
    [None] when the pattern does not match. *)
Definition parse_dice (dice_expr : text) : option (result (nat * nat * Z)) :=
  match match_dice dice_expr with
  | None => None
  | Some (g1, g2, g3) =>
      Some
        match int_of_text g1 with
        | inl e => inl e
        | inr num_dice =>
            match int_of_text g2 with
            | inl e => inl e
            | inr die_size =>
                match g3 with
                | None => inr (num_dice, die_size, 0%Z)
                | Some g =>
                    match int_of_signed g with
                    | inl e => inl e
                    | inr modifier => inr (num_dice, die_size, modifier)
                    end
                end
            end
        end
  end.

(** [roll()], reading the random values from call number [offset] on;
    [random.randint(1, 0)] raises [ValueError]. *)
Definition roll (num_dice die_size : nat) (modifier : Z) (offset : nat)
  : result DiceRoll :=
  if (0 <? num_dice) && (die_size =? 0) then inl ValueError
  else
    let rolls := map rng (seq offset num_dice) in
    inr {| dr_rolls := rolls;
           dr_total := (Z.of_nat (sum_list rolls) + modifier)%Z |}.

Definition roll_dice (dice_expr : text) (advantage disadvantage : bool)
  : DiceAnswer :=
  match parse_dice dice_expr with
  | None => InvalidDice
  | Some (inl e) => DiceError e
  | Some (inr (num_dice, die_size, modifier)) =>
      if advantage || disadvantage then
        match roll num_dice die_size modifier 0 with
        | inl e => DiceError e
        | inr roll1 =>
            match roll num_dice die_size modifier num_dice with
            | inl e => DiceError e
            | inr roll2 =>
                if advantage then
                  TwoRolls true roll1 roll2
                    (if (dr_total roll2 <? dr_total roll1)%Z
                     then roll1 else roll2)
                else
                  TwoRolls false roll1 roll2
                    (if (dr_total roll1 <? dr_total roll2)%Z
                     then roll1 else roll2)
            end
        end
      else
        match roll num_dice die_size modifier 0 with
        | inl e => DiceError e
        | inr r => PlainRoll r modifier
        end
  end.

End Dice.

(** The decimal digits of a number. *)
Fixpoint text_of_uint (d : Decimal.uint) : text :=
  match d with
  | Decimal.Nil => []
  | Decimal.D0 d => "0"%char :: text_of_uint d
  | Decimal.D1 d => "1"%char :: text_of_uint d
  | Decimal.D2 d => "2"%char :: text_of_uint d
  | Decimal.D3 d => "3"%char :: text_of_uint d
  | Decimal.D4 d => "4"%char :: text_of_uint d
  | Decimal.D5 d => "5"%char :: text_of_uint d
  | Decimal.D6 d => "6"%char :: text_of_uint d
  | Decimal.D7 d => "7"%char :: text_of_uint d
  | Decimal.D8 d => "8"%char :: text_of_uint d
  | Decimal.D9 d => "9"%char :: text_of_uint d
  end.

Definition decimal (n : nat) : text := text_of_uint (Nat.to_uint n).

(** The number [n] can be read back by [int]: its digits are within the
    limit, or there is no limit. *)
Definition fits (max_str_digits n : nat) : Prop :=
  max_str_digits = 0 ∨ length (decimal n) ≤ max_str_digits.

(** ** Vocabulary of the statements *)

(** [sub] occurs in [t] at index [i]; its first and its last occurrence. *)
Definition occurs_at (sub t : text) (i : nat) : Prop :=
  i ≤ length t ∧ starts_with sub (drop i t) = true.
Definition first_at (sub t : text) (i : nat) : Prop :=
  occurs_at sub t i ∧ ∀ j, j < i → ¬ occurs_at sub t j.
Definition last_at (sub t : text) (i : nat) : Prop :=
  occurs_at sub t i ∧ ∀ j, i < j → ¬ occurs_at sub t j.

(** [t.endswith(suffix)]. *)
Definition ends_with (t suffix : text) : bool :=
  starts_with (rev suffix) (rev t).

(** The sentence terminator of the excerpt trimming. *)
Definition terminator : text := T ". ".

(** The raw window of [_search_in_text] around a match: 300 characters to
    each side, clamped to the text. *)
Definition raw_window (t : text) (mstart mend : nat) : text :=
  slice t (Z.max 0 (Z.of_nat mstart - 300))
    (Z.min (len t) (Z.of_nat mend + 300)).

(** The first trim: the window loses everything up to and including its
    first terminator when that one starts at an index strictly between 0
    and 100, and is kept whole otherwise. *)
Definition first_trim (w w1 : text) : Prop :=
  (∃ i, first_at terminator w i ∧ 0 < i < 100 ∧ w1 = drop (i + 2) w)
  ∨ ((∀ i, first_at terminator w i → ¬ 0 < i < 100) ∧ w1 = w).

(** The second trim, for a window [w1] whose last terminator starts at
    [i]: everything after the full stop goes when fewer than 100
    characters remain from [i] on. *)
Definition last_trim (w1 : text) (i : nat) : text :=
  if decide (length w1 < i + 100) then take (i + 1) w1 else w1.

(** The second trim, for a window [w1] left by the first: with a
    terminator left, the one that starts last decides as [last_trim] says;
    without one, a window of at least 99 characters is kept whole. *)
Definition second_trim (w1 w2 : text) : Prop :=
  (∃ i, last_at terminator w1 i ∧ w2 = last_trim w1 i)
  ∨ ((∀ i, ¬ occurs_at terminator w1 i) ∧ 99 ≤ length w1 ∧ w2 = w1).

(** The trimming as the specification words it: the first trim applies
    whenever a terminator starts within the first 100 characters, the
    second whenever one starts within the last 100 characters, and neither
    without a terminator. *)
Definition sentence_trim_claimed (w : text) : text :=
  let first_period := find w terminator in
  let w1 :=
    if (0 <=? first_period)%Z && (first_period <? 100)%Z
    then slice_from w (first_period + 2) else w in
  let last_period := rfind w1 terminator in
  let w2 :=
    if (0 <=? last_period)%Z && (len w1 - 100 <=? last_period)%Z
    then slice_to w1 (last_period + 1) else w1 in
  strip w2.

(** A place of the searched string where [^] matches under
    [re.MULTILINE], [bol] telling whether its start is one. *)
Definition line_start_from (bol : bool) (t : text) (k : nat) : Prop :=
  match k with
  | 0 => bol = true
  | S k' => t !! k' = Some "010"%char
  end.

(** Position [p] of [t] starts a heading line of depth at most [d] in the
    text that follows the matched heading, which ends at [from]: [p] opens
    that text or follows a newline, and carries between 1 and [d] hashes
    and then a whitespace character. *)
Definition heading_line_at (t : text) (from d p : nat) : Prop :=
  from ≤ p
  ∧ (p = from ∨ t !! (p - 1) = Some "010"%char)
  ∧ ∃ k c, 1 ≤ k ≤ d ∧ span_len is_hash (drop p t) = k
           ∧ t !! (p + k) = Some c ∧ is_space c = true.

(** The extent of the section returned for the heading matched at
    [start], whose text ends at [mend] and whose depth is [d]: it runs
    from [start] to [stop], the first heading line of depth at most [d]
    behind the match, or the end of the text when there is none. *)
Definition section_extent (t name : text) (start mend : nat) : Prop :=
  let d := span_len is_hash (drop start t) in
  ∃ stop,
    _extract_section t name
    = inr (Some (strip (take (stop - start) (drop start t))))
    ∧ 1 ≤ d ∧ start < mend ∧ mend ≤ stop ∧ stop ≤ length t
    ∧ ((stop = length t ∧ ∀ p, ¬ heading_line_at t mend d p)
       ∨ (heading_line_at t mend d stop
          ∧ ∀ p, p < stop → ¬ heading_line_at t mend d p))
    ∧ (∀ p k, span_len is_hash (drop p t) = k → d < k →
              ¬ heading_line_at t mend d p).

(** The section as the specification words it: from the start of the
    matched heading to the start of the next heading line of depth at most
    that of the match, a line being a line of the whole text, so that the
    place right behind the match opens one only when a newline stands
    before it. *)
Definition extract_section_claimed (t section_name : text) : option text :=
  match search_from (match_heading section_name) t 0 with
  | None => None
  | Some (start, mend) =>
      let heading_level := span_len is_hash (drop start t) in
      let bol :=
        match t !! (mend - 1) with Some c => is_newline c | None => false end in
      let end_ :=
        match search_line_start (match_next_heading heading_level)
                (drop mend t) bol 0 with
        | Some (nstart, _) => mend + nstart
        | None => length t
        end in
      Some (strip (take (end_ - start) (drop start t)))
  end.

(** Two strings of the same length whose characters are pairwise the same
    up to case, in the comparison that [re.IGNORECASE] makes between a
    character of an escaped pattern and a character of the text; on code
    points 0..255 the two are the same exactly when their lowered forms
    are equal. The relation is taken character by character: equality of
    whole strings after [str.lower] is another relation on text beyond
    these code points. *)
Definition same_ignoring_case (a b : text) : Prop :=
  Forall2 (fun x y => lower_char x = lower_char y) a b.

(** No file stored in a files dict is empty. *)
Definition files_nonempty (files : gmap string Entry) : Prop :=
  ∀ key f, files !! key = Some (File f) → content f ≠ [].

Section ServerVocabulary.

Variable fs : FileSystem.

(** What a switch of the server [st] to an identifier reloads: the
    campaign that its loader loads for the identifier ([loaded_for] when
    the load returns), and the arbiter built from that campaign and the
    core rules of the server, when both steps return. *)
Definition campaign_for (st : Server) (name : string) : result CampaignData :=
  load_campaign fs
    {| config := config (campaign_loader st); active_campaign_name := name |}.

Definition loaded_for (st : Server) (name : string) : option CampaignData :=
  match campaign_for st name with
  | inr campaign => Some campaign
  | inl _ => None
  end.

Definition arbiter_for (st : Server) (name : string) : option RulesArbiter :=
  match campaign_for st name with
  | inr campaign =>
      match new_RulesArbiter campaign (server_core_rules st) with
      | inr arbiter => Some arbiter
      | inl _ => None
      end
  | inl _ => None
  end.

(** What the server keeps true between tool calls: the active campaign
    is the one the configuration names and it is configured, the
    configuration file holds the configuration of the loader, the current
    campaign is a configured campaign as loaded, and the arbiter is built
    from a configured campaign as loaded and from the core rules. The
    current campaign and the campaign of the arbiter need not be the
    active one. *)
Definition server_invariant (st : Server) : Prop :=
  let loader := campaign_loader st in
  active_campaign_name loader
  = default "fragments"%string (activeCampaign (config loader))
  ∧ config_file st = config loader
  ∧ is_Some (campaigns (config loader) !! active_campaign_name loader)
  ∧ (∃ name, campaign_for st name = inr (current_campaign st))
  ∧ (∃ name, arbiter_for st name = Some (rules_arbiter st)).

End ServerVocabulary.

(** The texts the resolver builds its answers from. *)
Definition disclaimer : text := T "DM has final authority.".
Definition fallback_suggestion : text :=
  T "No related rules found. Suggest using standard 5e mechanics or making a balanced ruling that favors narrative over mechanics.".
Definition closing_ruling : text :=
  T "Suggested ruling: Apply the principles above to this situation. Favor rulings that keep the game moving and are fair to all players.".
Definition suggestion_line (rule : RelatedRule) : text :=
  T "- " ++ source rule ++ T ": " ++ rule_text rule ++ T "..." ++ newline.

(** ** Sample data *)

Definition sample_core_text : text :=
  T "Normal rolls use one die. Advantage means rolling twice. Take the higher.".
Definition sample_house_text : text :=
  T "In this campaign flanking counts. Flanking grants advantage. Enjoy.".

(** A document with headings at depths 1, 2 and 1. *)
Definition sample_document : text :=
  T "# Combat" ++ newline ++ T "Roll initiative." ++ newline
  ++ T "## Flanking" ++ newline ++ T "Flanking grants advantage." ++ newline
  ++ T "# Magic" ++ newline ++ T "Spells work as written.".

(** A configuration with four campaigns: a legacy one whose house rules
    are a file, a standard one, a legacy one whose [rules] path is a
    directory, and a standard one without the key [path]. *)
Definition sample_config : Config :=
  {| campaigns :=
       {[ "fragments"%string :=
            {| cfg_name := Some (T "Fragments");
               cfg_description := None;
               cfg_type := Some (T "legacy");
               cfg_path := None;
               cfg_paths :=
                 Some {[ "houseRules"%string :=
                           T "campaigns/fragments/house-rules.md" ]} |};
          "strahd"%string :=
            {| cfg_name := Some (T "Curse of Strahd");
               cfg_description := Some (T "Gothic horror");
               cfg_type := Some (T "standard");
               cfg_path := Some (T "campaigns/strahd");
               cfg_paths := None |};
          "tomb"%string :=
            {| cfg_name := Some (T "Tomb of Annihilation");
               cfg_description := None;
               cfg_type := Some (T "legacy");
               cfg_path := None;
               cfg_paths :=
                 Some {[ "rules"%string := T "campaigns/tomb/rules" ]} |};
          "draft"%string :=
            {| cfg_name := Some (T "Draft");
               cfg_description := None;
               cfg_type := Some (T "standard");
               cfg_path := None;
               cfg_paths := None |} ]};
     activeCampaign := Some "fragments"%string;
     coreRulesPath := Some (T "core-rules") |}.

Definition strahd_house_text : text :=
  T "## Combat" ++ newline ++ T "Flanking grants advantage.".

(** The files of the sample campaigns: the core rules folder with
    [house-rules.md], the house rules file of [fragments], the folder of
    [strahd] with [house-rules.md] and one file under [npcs], and the
    directory [rules] of [tomb] with one file. *)
Definition sample_files : list (Path * text) :=
  [ ([T "core-rules"; T "house-rules.md"], sample_core_text);
    ([T "campaigns/fragments/house-rules.md"], sample_house_text);
    ([T "campaigns/strahd"; T "house-rules.md"], strahd_house_text);
    ([T "campaigns/strahd"; T "npcs"; T "ireena.md"], T "Ireena Kolyana.");
    ([T "campaigns/tomb/rules"; T "combat.md"],
     T "Flanking grants advantage.") ].

Definition sample_directories : list (Path * list (string * Path)) :=
  [ ([T "core-rules"],
     [("house-rules"%string, [T "core-rules"; T "house-rules.md"])]);
    ([T "campaigns/strahd"], []);
    ([T "campaigns/strahd"; T "npcs"],
     [("ireena.md"%string, [T "campaigns/strahd"; T "npcs"; T "ireena.md"])]);
    ([T "campaigns/tomb/rules"],
     [("combat.md"%string, [T "campaigns/tomb/rules"; T "combat.md"])]) ].

Definition path_lookup {A} (l : list (Path * A)) (p : Path) : option A :=
  snd <$> List.find (fun x => bool_decide (fst x = p)) l.

Definition sample_fs : FileSystem :=
  {| is_file := fun p => bool_decide (is_Some (path_lookup sample_files p));
     is_dir := fun p => bool_decide (is_Some (path_lookup sample_directories p));
     path_exists :=
       fun p => bool_decide (is_Some (path_lookup sample_files p))
                || bool_decide (is_Some (path_lookup sample_directories p));
     _read_file := path_lookup sample_files;
     glob_md := fun p => default [] (path_lookup sample_directories p);
     rglob_md := fun p => default [] (path_lookup sample_directories p);
     path_str :=
       fun p =>
         match p with
         | [] => T "."
         | a :: l => fold_left (fun acc b => acc ++ T "/" ++ b) l a
         end |}.

Definition sample_campaign : CampaignData :=
  {| cd_name := Some (T "Fragments");
     cd_files :=
       Some {[ "houseRules"%string :=
                 File {| path := T "campaigns/fragments/house-rules.md";
                         content := sample_house_text |} ]} |}.

Definition sample_core_rules : gmap string text :=
  {[ "house-rules"%string := sample_core_text ]}.

Definition sample_arbiter : RulesArbiter :=
  {| campaign_data := sample_campaign;
     core_rules := sample_core_rules;
     campaign_name := T "Fragments";
     house_rules := sample_house_text |}.

Definition sample_server : Server :=
  {| campaign_loader :=
       {| config := sample_config;
          active_campaign_name := "fragments"%string |};
     config_file := sample_config;
     current_campaign := sample_campaign;
     server_core_rules := sample_core_rules;
     rules_arbiter := sample_arbiter |}.

(** A campaign without files, and its arbiter. *)
Definition bare_campaign : CampaignData :=
  {| cd_name := Some (T "Fragments"); cd_files := None |}.

Definition bare_arbiter : RulesArbiter :=
  {| campaign_data := bare_campaign;
     core_rules := sample_core_rules;
     campaign_name := T "Fragments";
     house_rules := [] |}.

(** A text with one match far from both of its ends. *)
Definition sample_long_text : text :=
  repeat "x"%char 120 ++ T " Advantage " ++ repeat "y"%char 120.

(** [e] is a contiguous piece of [t]. *)
Definition piece_of (e t : text) : Prop := ∃ a b, t = a ++ e ++ b.

(** [t] neither starts nor ends with a whitespace character. *)
Definition trimmed (t : text) : Prop :=
  (∀ c, head t = Some c → is_space c = false)
  ∧ (∀ c, last t = Some c → is_space c = false).

(** * Properties *)

(** ** Truthiness *)

Lemma truthy_Some_cons (o : option text) :
  truthy o = true → ∃ c t, o = Some (c :: t).
Proof. destruct o as [[|c t]|]; simpl; intros; try discriminate; eauto. Qed.

Lemma truthy_guard (o : option text) :
  truthy (if truthy o then o else None) = truthy o.
Proof. by destruct o as [[|c t]|]. Qed.

Lemma guard_Some (o : option text) (x : text) :
  (if truthy o then o else None) = Some x → o = Some x ∧ truthy o = true.
Proof. destruct o as [[|c t]|]; simpl; intros; simplify_eq; done. Qed.

Lemma guard_None (o : option text) :
  (if truthy o then o else None) = None → truthy o = false.
Proof. by destruct o as [[|c t]|]. Qed.

(** ** query_rule *)

(** C2. Whenever [query_rule] populates both the house-rule and the
    core-rule field, the recommendation quotes the house-rule excerpt (its
    first 200 characters); a recommendation that quotes the core rule is
    produced only when the house-rule field is empty, and then it quotes
    the core excerpt. *)
Theorem query_rule_prefers_house_rule
  (self : RulesArbiter) (rule_name context : text) :
  let r := query_rule self rule_name context in
  (∀ h c, qr_houseRule r = Some h → qr_coreRule r = Some c →
     qr_recommendation r
     = T "Use campaign-specific rule: " ++ take 200 h ++ T "...")
  ∧ (∀ x, qr_recommendation r = T "Use core rule: " ++ x →
       qr_houseRule r = None)
  ∧ (∀ c, qr_houseRule r = None → qr_coreRule r = Some c →
       qr_recommendation r = T "Use core rule: " ++ take 200 c ++ T "...").
Proof.
  unfold query_rule; simpl.
  rewrite !truthy_guard.
  destruct (_search_in_text rule_name (house_rules self)) as [[|a h]|];
    destruct (_search_in_text rule_name (core_text self)) as [[|b c]|];
    simpl; repeat split; intros; simplify_eq; done.
Qed.

Lemma query_rule_prefers_house_rule_witness :
  let r := query_rule sample_arbiter (T "advantage") [] in
  qr_houseRule r = Some (T "Flanking grants advantage.")
  ∧ qr_coreRule r = Some (T "Advantage means rolling twice.")
  ∧ qr_recommendation r
    = T "Use campaign-specific rule: Flanking grants advantage....".
Proof.
  split; [reflexivity|]. split; [reflexivity|].
  apply (proj1 (query_rule_prefers_house_rule sample_arbiter
                  (T "advantage") []) (T "Flanking grants advantage.")
           (T "Advantage means rolling twice."));
    reflexivity.
Defined.

(** ** compare_rules *)

(** C4, as the code has it. [compare_rules] returns a differences list of
    length 0 or 1; it has length 1 exactly when both searches return an
    excerpt that is not empty and the two excerpts are not identical, and
    its entry then holds the two excerpts; identical results give an empty
    list. The flags [coreDefined] and [campaignOverride] say which search
    returned an excerpt that is not empty. *)
Theorem compare_rules_differences (self : RulesArbiter) (rule_name : text) :
  let core_search := _search_in_text rule_name (core_text self) in
  let house_search := _search_in_text rule_name (house_rules self) in
  let r := compare_rules self rule_name in
  length (differences r) ≤ 1
  ∧ (length (differences r) = 1 ↔
       ∃ c h, core_search = Some c ∧ house_search = Some h
              ∧ c ≠ [] ∧ h ≠ [] ∧ c ≠ h)
  ∧ (∀ c h, core_search = Some c → house_search = Some h →
            c ≠ [] → h ≠ [] → c ≠ h →
            differences r
            = [ {| aspect := rule_name; coreRule := c; campaignRule := h;
                   useCampaignRule := true |} ])
  ∧ (core_search = house_search → differences r = [])
  ∧ (coreDefined r = true ↔ ∃ c, core_search = Some c ∧ c ≠ [])
  ∧ (campaignOverride r = true ↔ ∃ h, house_search = Some h ∧ h ≠ []).
Proof.
  unfold compare_rules; simpl.
  destruct (_search_in_text rule_name (core_text self)) as [[|a c]|];
    destruct (_search_in_text rule_name (house_rules self)) as [[|b h]|];
    simpl; try case_bool_decide; simpl;
    (split; [lia|]); (split; [split|]);
    try (intros (? & ? & ? & ? & ? & ? & ?); simplify_eq; done);
    try (intros; simplify_eq; lia);
    try (intros _; eexists _, _; repeat split; try done; congruence);
    (split; [intros; simplify_eq; done|]);
    (split; [intros; simplify_eq; done|]);
    split; split;
    try (intros (? & ? & ?); simplify_eq; done);
    try (intros; simplify_eq; done);
    intros _; eexists; split; done.
Qed.

Lemma compare_rules_differences_witness :
  length (differences (compare_rules sample_arbiter (T "advantage"))) = 1.
Proof.
  pose proof (compare_rules_differences sample_arbiter (T "advantage"))
    as (_ & H & _).
  apply H. eexists _, _. repeat split; [reflexivity..| | |]; discriminate.
Defined.

(** C4, as the specification states it, fails: on the core text of the
    specification's scenario A the core search returns an excerpt, the
    empty one, the house search returns another, and no difference is
    recorded. *)
Lemma compare_rules_ignores_empty_excerpt :
  let self :=
    {| campaign_data := sample_campaign;
       core_rules :=
         {[ "house-rules"%string :=
              T "Advantage: roll twice, take the higher." ]};
       campaign_name := T "Fragments";
       house_rules := sample_house_text |} in
  let core_search := _search_in_text (T "advantage") (core_text self) in
  let house_search := _search_in_text (T "advantage") (house_rules self) in
  core_search = Some []
  ∧ house_search = Some (T "Flanking grants advantage.")
  ∧ differences (compare_rules self (T "advantage")) = []
  ∧ ¬ (length (differences (compare_rules self (T "advantage"))) = 1 ↔
         ∃ c h, core_search = Some c ∧ house_search = Some h ∧ c ≠ h).
Proof.
  split; [reflexivity|]. split; [reflexivity|]. split; [reflexivity|].
  intros [_ H]. 
  assert (length (differences
                    (compare_rules
                       {| campaign_data := sample_campaign;
                          core_rules :=
                            {[ "house-rules"%string :=
                                 T "Advantage: roll twice, take the higher." ]};
                          campaign_name := T "Fragments";
                          house_rules := sample_house_text |}
                       (T "advantage"))) = 1) as Hlen.
  { apply H. exists [], (T "Flanking grants advantage.").
    split; [reflexivity|]. split; [reflexivity|]. discriminate. }
  vm_compute in Hlen. discriminate.
Qed.

(** ** _extract_keywords *)

(** C5. [_extract_keywords] returns at most 5 entries: the first 5
    vocabulary hits followed by quoted phrases, and the quoted phrases
    among them are a prefix of the quoted phrases of the text of length at
    most 3. *)
Theorem extract_keywords_bounds (t : text) :
  let vocabulary := take 5 (vocabulary_hits t) in
  let quoted :=
    take (5 - length (vocabulary_hits t)) (take 3 (quoted_phrases t)) in
  _extract_keywords t = vocabulary ++ quoted
  ∧ length (_extract_keywords t) ≤ 5
  ∧ length quoted ≤ 3
  ∧ quoted `prefix_of` quoted_phrases t.
Proof.
  unfold _extract_keywords; simpl.
  split; [apply take_app|].
  split; [rewrite length_take; lia|].
  split; [rewrite !length_take; lia|].
  etrans; apply prefix_take.
Qed.

(** Two vocabulary hits, in the order of the vocabulary, then the first
    three of four quoted phrases. *)
Lemma extract_keywords_example :
  let quote := ["034"%char] in
  _extract_keywords
    (T "Does a bonus action allow " ++ quote ++ T "Shove" ++ quote
     ++ T ", " ++ quote ++ T "Grapple" ++ quote ++ T ", " ++ quote
     ++ T "Dash" ++ quote ++ T " or " ++ quote ++ T "Hide" ++ quote
     ++ T "?")
  = [T "action"; T "bonus action"; T "Shove"; T "Grapple"; T "Dash"].
Proof. reflexivity. Qed.

(** ** resolve_edge_case *)

Lemma fold_left_app_concat {A B} (f : A → list B) (l : list A) (acc : list B) :
  fold_left (λ acc x, acc ++ f x) l acc = acc ++ concat (map f l).
Proof.
  revert acc; induction l as [|x l IH]; intros acc; simpl.
  - by rewrite app_nil_r.
  - by rewrite IH, app_assoc.
Qed.

Lemma generate_ruling_suggestion_cons situation rule rules :
  _generate_ruling_suggestion situation (rule :: rules)
  = T "Based on related rules:" ++ newline
    ++ concat (map suggestion_line (take 2 (rule :: rules)))
    ++ newline ++ closing_ruling.
Proof.
  unfold _generate_ruling_suggestion.
  rewrite (fold_left_app_concat suggestion_line).
  by rewrite <- !app_assoc.
Qed.

Lemma ends_with_app_closing (x : text) :
  ends_with (x ++ closing_ruling) disclaimer = false.
Proof. unfold ends_with. rewrite rev_app_distr. reflexivity. Qed.

(** C6, as the code has it. For every situation the [note] field of
    [resolve_edge_case] is the fixed disclaimer that the DM has final
    authority; the [suggestion] field does not carry it. The related rules
    are the hits of the keywords in keyword order, core before house;
    without related rules the suggestion is the fixed fallback sentence,
    otherwise it lists the first 2 related-rule entries in that order
    and closes with the suggested-ruling sentence. *)
Theorem resolve_edge_case_suggestion (self : RulesArbiter) (sit : text) :
  let r := resolve_edge_case self sit in
  note r = T "This is a suggested ruling. DM has final authority."
  ∧ ends_with (note r) disclaimer = true
  ∧ ends_with (suggestion r) disclaimer = false
  ∧ relatedRules r = concat (map (related_for self) (_extract_keywords sit))
  ∧ (relatedRules r = [] → suggestion r = fallback_suggestion)
  ∧ (relatedRules r ≠ [] →
       suggestion r
       = T "Based on related rules:" ++ newline
         ++ concat (map suggestion_line (take 2 (relatedRules r)))
         ++ newline ++ closing_ruling).
Proof.
  unfold resolve_edge_case; simpl.
  rewrite (fold_left_app_concat (related_for self)); simpl.
  split; [done|]. split; [done|].
  destruct (concat (map (related_for self) (_extract_keywords sit)))
    as [|rule rules] eqn:E.
  - repeat split; done.
  - rewrite generate_ruling_suggestion_cons.
    split; [|repeat split; done].
    rewrite !app_assoc. apply ends_with_app_closing.
Qed.

Lemma resolve_edge_case_suggestion_witness :
  let r := resolve_edge_case sample_arbiter
             (T "Does flanking give advantage on the attack?") in
  relatedRules r ≠ []
  ∧ suggestion r
    = T "Based on related rules:" ++ newline
      ++ concat (map suggestion_line (take 2 (relatedRules r)))
      ++ newline ++ closing_ruling.
Proof.
  pose proof (resolve_edge_case_suggestion sample_arbiter
                (T "Does flanking give advantage on the attack?")) as H.
  destruct H as (_ & _ & _ & _ & _ & H).
  split; [vm_compute; discriminate|].
  apply H. vm_compute; discriminate.
Defined.

(** C6, as the specification states it, fails: with two related rules found
    the suggestion ends with the suggested-ruling sentence, not with the
    disclaimer. *)
Lemma suggestion_lacks_disclaimer :
  let r := resolve_edge_case sample_arbiter
             (T "Does flanking give advantage on the attack?") in
  suggestion r
  = T "Based on related rules:" ++ newline
    ++ T "- Core Rules: Advantage means rolling twice...." ++ newline
    ++ T "- House Rules: Flanking grants advantage...." ++ newline
    ++ newline ++ closing_ruling
  ∧ ends_with (suggestion r) disclaimer = false.
Proof. split; reflexivity. Qed.

(** ** find and rfind *)

Lemma occurs_at_cons sub c t i :
  occurs_at sub (c :: t) (S i) ↔ occurs_at sub t i.
Proof. unfold occurs_at; simpl. split; intros [? ?]; split; auto; lia. Qed.

Lemma find_from_Some sub t i j :
  find_from sub t i = Some j → i ≤ j ∧ first_at sub t (j - i).
Proof.
  revert i; induction t as [|c t IH]; intros i; simpl.
  - destruct (starts_with sub []) eqn:E; [|done].
    intros [= <-]. replace (i - i) with 0 by lia.
    repeat split; simpl; auto; lia.
  - destruct (starts_with sub (c :: t)) eqn:E.
    + intros [= <-]. replace (i - i) with 0 by lia.
      repeat split; simpl; auto; lia.
    + intros H. apply IH in H as [Hle [Hocc Hmin]].
      replace (j - i) with (S (j - S i)) by lia.
      split; [lia|]. split; [by apply occurs_at_cons|].
      intros [|k] Hk.
      * intros [_ Hs]. simpl in Hs. congruence.
      * rewrite occurs_at_cons. apply Hmin. lia.
Qed.

Lemma find_from_None sub t i :
  find_from sub t i = None → ∀ k, ¬ occurs_at sub t k.
Proof.
  revert i; induction t as [|c t IH]; intros i; simpl.
  - destruct (starts_with sub []) eqn:E; [done|].
    intros _ k [Hk Hs]. simpl in Hk.
    replace k with 0 in Hs by lia. simpl in Hs. congruence.
  - destruct (starts_with sub (c :: t)) eqn:E; [done|].
    intros H [|k].
    + intros [_ Hs]. simpl in Hs. congruence.
    + rewrite occurs_at_cons. by eapply IH.
Qed.

Lemma rfind_from_None sub t i :
  rfind_from sub t i = None → ∀ k, ¬ occurs_at sub t k.
Proof.
  revert i; induction t as [|c t IH]; intros i; simpl.
  - destruct (starts_with sub []) eqn:E; [done|].
    intros _ k [Hk Hs]. simpl in Hk.
    replace k with 0 in Hs by lia. simpl in Hs. congruence.
  - destruct (rfind_from sub t (S i)) eqn:R; [done|].
    destruct (starts_with sub (c :: t)) eqn:E; [done|].
    intros _ [|k].
    + intros [_ Hs]. simpl in Hs. congruence.
    + rewrite occurs_at_cons. by eapply IH.
Qed.

Lemma rfind_from_Some sub t i j :
  rfind_from sub t i = Some j → i ≤ j ∧ last_at sub t (j - i).
Proof.
  revert i; induction t as [|c t IH]; intros i; simpl.
  - destruct (starts_with sub []) eqn:E; [|done].
    intros [= <-]. replace (i - i) with 0 by lia.
    repeat split; simpl; auto.
    intros k Hk [Hlen _]. simpl in Hlen. lia.
  - destruct (rfind_from sub t (S i)) as [j'|] eqn:R.
    + intros [= <-]. apply IH in R as [Hle [Hocc Hmax]].
      replace (j' - i) with (S (j' - S i)) by lia.
      split; [lia|]. split; [by apply occurs_at_cons|].
      intros [|k] Hk; [lia|].
      rewrite occurs_at_cons. apply Hmax. lia.
    + destruct (starts_with sub (c :: t)) eqn:E; [|done].
      intros [= <-]. replace (i - i) with 0 by lia.
      split; [lia|]. split; [split; simpl; [lia|done]|].
      intros [|k] Hk; [lia|].
      rewrite occurs_at_cons. by eapply rfind_from_None.
Qed.

Lemma first_at_unique sub t i j :
  first_at sub t i → first_at sub t j → i = j.
Proof.
  intros [Hi Hmi] [Hj Hmj].
  destruct (lt_eq_lt_dec i j) as [[Hlt| ->]|Hlt]; [|done|].
  - by apply Hmj in Hlt.
  - by apply Hmi in Hlt.
Qed.

Lemma last_at_unique sub t i j :
  last_at sub t i → last_at sub t j → i = j.
Proof.
  intros [Hi Hmi] [Hj Hmj].
  destruct (lt_eq_lt_dec i j) as [[Hlt| ->]|Hlt]; [|done|].
  - by apply Hmi in Hlt.
  - by apply Hmj in Hlt.
Qed.

(** [find] and [rfind] against the occurrences of [sub]. *)
Lemma find_first_at sub t i :
  first_at sub t i → find t sub = Z.of_nat i.
Proof.
  intros Hi. unfold find.
  destruct (find_from sub t 0) as [j|] eqn:F.
  - apply find_from_Some in F as [_ F]. rewrite Nat.sub_0_r in F.
    by rewrite (first_at_unique _ _ _ _ Hi F).
  - destruct Hi as [Hi _]. by eapply find_from_None in F.
Qed.

Lemma find_nonneg sub t :
  (0 <= find t sub)%Z → first_at sub t (Z.to_nat (find t sub)).
Proof.
  unfold find. destruct (find_from sub t 0) as [j|] eqn:F; [|lia].
  intros _. apply find_from_Some in F as [_ F].
  by rewrite Nat.sub_0_r in F; rewrite Nat2Z.id.
Qed.

Lemma rfind_last_at sub t i :
  last_at sub t i → rfind t sub = Z.of_nat i.
Proof.
  intros Hi. unfold rfind.
  destruct (rfind_from sub t 0) as [j|] eqn:F.
  - apply rfind_from_Some in F as [_ F]. rewrite Nat.sub_0_r in F.
    by rewrite (last_at_unique _ _ _ _ Hi F).
  - destruct Hi as [Hi _]. by eapply rfind_from_None in F.
Qed.

(** ** Slices at non-negative bounds *)

Lemma norm_index_nat (t : text) (n : nat) :
  norm_index t (Z.of_nat n) = n `min` length t.
Proof. unfold norm_index, len. destruct (Z.ltb_spec (Z.of_nat n) 0); lia. Qed.

Lemma slice_from_nat (t : text) (n : nat) :
  slice_from t (Z.of_nat n) = drop n t.
Proof.
  unfold slice_from. rewrite norm_index_nat.
  destruct (Nat.min_spec n (length t)) as [[_ ->]|[H ->]]; [done|].
  by rewrite !drop_ge by lia.
Qed.

Lemma slice_to_nat (t : text) (n : nat) :
  slice_to t (Z.of_nat n) = take n t.
Proof.
  unfold slice_to. rewrite norm_index_nat.
  destruct (Nat.min_spec n (length t)) as [[_ ->]|[H ->]]; [done|].
  by rewrite !take_ge by lia.
Qed.

Lemma starts_with_length p t : starts_with p t = true → length p ≤ length t.
Proof.
  revert t; induction p as [|a p IH]; intros [|b t]; simpl; try done; try lia.
  intros [_ H]%andb_prop. apply IH in H. lia.
Qed.

Lemma lower_length t : length (lower t) = length t.
Proof. unfold lower. apply length_map. Qed.

Lemma occurs_at_bound sub t i :
  occurs_at sub t i → i + length sub ≤ length t.
Proof.
  intros [Hi H]. apply starts_with_length in H.
  rewrite length_drop in H. lia.
Qed.

(** ** _search_in_text *)

(** The second trim of the source, for a window in which a terminator is
    left. *)
Lemma second_trim_last_at (w1 : text) (i : nat) :
  last_at terminator w1 i →
  (if (len w1 - 100 <? rfind w1 terminator)%Z
   then slice_to w1 (rfind w1 terminator + 1) else w1)
  = last_trim w1 i.
Proof.
  intros Hi. rewrite (rfind_last_at _ _ _ Hi). unfold last_trim, len.
  replace (Z.of_nat i + 1)%Z with (Z.of_nat (i + 1)) by lia.
  rewrite slice_to_nat.
  destruct (Z.ltb_spec (Z.of_nat (length w1) - 100) (Z.of_nat i));
    case_decide; first [done | lia].
Qed.

Lemma rfind_cases sub t :
  (∃ i, last_at sub t i ∧ rfind t sub = Z.of_nat i)
  ∨ ((∀ k, ¬ occurs_at sub t k) ∧ rfind t sub = (-1)%Z).
Proof.
  unfold rfind. destruct (rfind_from sub t 0) as [j|] eqn:F.
  - left. exists j. apply rfind_from_Some in F as [_ F].
    by rewrite Nat.sub_0_r in F.
  - right. split; [|done]. by eapply rfind_from_None.
Qed.

(** The second trim of the source on any window: it is the second trim of
    the statements, or the window has no terminator and fewer than 99
    characters and nothing is left of it. *)
Lemma second_trim_source (w1 : text) :
  let w2 :=
    if (len w1 - 100 <? rfind w1 terminator)%Z
    then slice_to w1 (rfind w1 terminator + 1) else w1 in
  second_trim w1 w2
  ∨ ((∀ i, ¬ occurs_at terminator w1 i) ∧ length w1 < 99 ∧ w2 = []).
Proof.
  cbv zeta. destruct (rfind_cases terminator w1) as [(i & Hi & Hr)|[Hno Hr]].
  - left. left. exists i. split; [done|]. by apply second_trim_last_at.
  - rewrite Hr. unfold len.
    destruct (Z.ltb_spec (Z.of_nat (length w1) - 100) (-1)).
    + right. repeat split; [done|lia|].
      change (-1 + 1)%Z with (Z.of_nat 0). by rewrite slice_to_nat.
    + left. right. repeat split; [done|lia].
Qed.

(** C7, as the code has it. For every successful search: when the first
    terminator of the raw window starts at an index strictly between 0 and
    100, the window loses everything up to and including it, and otherwise
    the start of the window is kept. Then, in the window so trimmed: when
    a terminator is left, the one that starts last decides the end (if
    fewer than 100 characters remain from its start, everything after its
    full stop is cut, and otherwise the end is kept); when none is left
    and the window has at least 99 characters, the end is kept. The
    excerpt is the result without its surrounding whitespace. The one
    case left, a window of fewer than 99 characters without a terminator,
    is the one in which the search returns the empty excerpt. *)
Theorem search_in_text_sentence_trim (term t e : text) :
  _search_in_text term t = Some e →
  ∃ mstart mend w1,
    search_escaped_ci term t = Some (mstart, mend)
    ∧ first_trim (raw_window t mstart mend) w1
    ∧ ((∃ w2, second_trim w1 w2 ∧ e = strip w2)
       ∨ ((∀ i, ¬ occurs_at terminator w1 i) ∧ length w1 < 99 ∧ e = [])).
Proof.
  unfold _search_in_text.
  destruct (bool_decide (t = []) || bool_decide (term = [])); [done|].
  destruct (search_escaped_ci term t) as [[ms me]|]; [|done].
  fold (raw_window t ms me). change (T ". ") with terminator.
  set (w := raw_window t ms me). cbv zeta.
  set (fp := find w terminator).
  intros [= <-]. exists ms, me.
  assert (∀ w1,
            (∃ w2, second_trim w1 w2
                   ∧ strip (if (len w1 - 100 <? rfind w1 terminator)%Z
                            then slice_to w1 (rfind w1 terminator + 1)
                            else w1) = strip w2)
            ∨ ((∀ i, ¬ occurs_at terminator w1 i) ∧ length w1 < 99
               ∧ strip (if (len w1 - 100 <? rfind w1 terminator)%Z
                        then slice_to w1 (rfind w1 terminator + 1)
                        else w1) = [])) as Hsecond.
  { intros w1. destruct (second_trim_source w1) as [H|(Hno & Hlen & ->)].
    - left. eauto.
    - right. done. }
  destruct ((0 <? fp)%Z && (fp <? 100)%Z) eqn:E1.
  - apply andb_prop in E1 as [H0 H100].
    apply Z.ltb_lt in H0, H100.
    assert (Hfp : first_at terminator w (Z.to_nat fp))
      by (apply find_nonneg; fold fp; lia).
    replace (fp + 2)%Z with (Z.of_nat (Z.to_nat fp + 2)) by lia.
    rewrite slice_from_nat.
    exists (drop (Z.to_nat fp + 2) w). split; [done|]. split; [|done].
    unfold first_trim. left.
    exists (Z.to_nat fp). repeat split; try apply Hfp; lia.
  - exists w. split; [done|]. split; [|done].
    unfold first_trim. right. split; [|done]. intros i Hi Hrange.
    apply find_first_at in Hi. unfold fp, w in E1. rewrite Hi in E1.
    apply andb_false_iff in E1 as [E1|E1]; apply Z.ltb_ge in E1; lia.
Qed.

Lemma search_in_text_sentence_trim_witness :
  ∃ mstart mend w1,
    search_escaped_ci (T "advantage") sample_core_text = Some (mstart, mend)
    ∧ first_trim (raw_window sample_core_text mstart mend) w1
    ∧ ((∃ w2, second_trim w1 w2
              ∧ T "Advantage means rolling twice." = strip w2)
       ∨ ((∀ i, ¬ occurs_at terminator w1 i) ∧ length w1 < 99
          ∧ T "Advantage means rolling twice." = [])).
Proof.
  apply (search_in_text_sentence_trim (T "advantage") sample_core_text).
  reflexivity.
Defined.

(** C7, as the specification states it, fails: the window of this search
    has a terminator at index 0, within its first 100 characters, and the
    excerpt keeps it. *)
Lemma first_trim_skips_index_zero :
  let t := T ". advantage. x" in
  search_escaped_ci (T "advantage") t = Some (2, 11)
  ∧ find (raw_window t 2 11) terminator = 0%Z
  ∧ _search_in_text (T "advantage") t = Some (T ". advantage.")
  ∧ sentence_trim_claimed (raw_window t 2 11) = T "advantage."
  ∧ _search_in_text (T "advantage") t
    ≠ Some (sentence_trim_claimed (raw_window t 2 11)).
Proof. repeat split; try reflexivity. vm_compute. discriminate. Qed.

Lemma search_escaped_ci_contains term t :
  contains (lower t) (lower term) = true →
  ∃ i, search_escaped_ci term t = Some (i, i + length term) ∧ i ≤ length t.
Proof.
  unfold contains, search_escaped_ci.
  destruct (find_from (lower term) (lower t) 0) as [i|] eqn:F; [|done].
  intros _. exists i. split; [done|].
  apply find_from_Some in F as (_ & (Hi & _) & _).
  by rewrite Nat.sub_0_r, lower_length in Hi.
Qed.

Lemma rfind_absent sub t : contains t sub = false → rfind t sub = (-1)%Z.
Proof.
  unfold contains, rfind.
  destruct (find_from sub t 0) eqn:F; [done|]. intros _.
  destruct (rfind_from sub t 0) as [j|] eqn:R; [|done].
  apply rfind_from_Some in R as (_ & Hocc & _).
  by eapply find_from_None in F.
Qed.

Lemma find_absent sub t : contains t sub = false → find t sub = (-1)%Z.
Proof. unfold contains, find. by destruct (find_from sub t 0). Qed.

Lemma raw_window_short t mstart mend :
  length t < 300 → mstart ≤ length t → raw_window t mstart mend = t.
Proof.
  intros Hlen Hstart. unfold raw_window, slice, len.
  rewrite Z.max_l, Z.min_l by lia.
  change 0%Z with (Z.of_nat 0). rewrite !norm_index_nat.
  rewrite Nat.min_0_l, Nat.min_id, Nat.sub_0_r, drop_0.
  by rewrite take_ge.
Qed.

(** The defect behind C1 in general: in a text of fewer than 99 characters
    without a terminator, every match is answered by the empty excerpt. *)
Lemma search_in_text_short_text term t :
  term ≠ [] →
  contains (lower t) (lower term) = true →
  contains t terminator = false →
  length t < 99 →
  _search_in_text term t = Some [].
Proof.
  intros Hterm Hmatch Hdot Hlen.
  destruct (search_escaped_ci_contains _ _ Hmatch) as (i & Hsearch & Hi).
  unfold _search_in_text. rewrite Hsearch.
  destruct t as [|c t]; [by destruct term|].
  destruct term as [|a term]; [done|].
  rewrite !bool_decide_eq_false_2 by done. simpl orb. cbv iota.
  fold (raw_window (c :: t) i (i + length (a :: term))).
  rewrite raw_window_short by lia.
  change (T ". ") with terminator.
  rewrite (find_absent _ _ Hdot). simpl andb. cbv iota zeta.
  rewrite (rfind_absent _ _ Hdot).
  assert ((len (c :: t) - 100 <? -1)%Z = true) as ->
    by (apply Z.ltb_lt; unfold len; lia).
  reflexivity.
Qed.

(** The first trim can drop the match as well: the term stands in the
    first sentence of the text, and the excerpt is the second. *)
Lemma search_in_text_drops_first_sentence :
  _search_in_text (T "flanking")
    (T "Flanking counts here. Ranged attacks never benefit. Enjoy.")
  = Some (T "Ranged attacks never benefit.").
Proof. reflexivity. Qed.

(** The first trim can drop all there is: the term stands in the only
    sentence of the text, the window left is a newline, and the excerpt is
    empty whatever the second trim does. *)
Lemma search_in_text_empty_after_first_trim :
  let t := T "Advantage. " ++ newline in
  search_escaped_ci (T "advantage") t = Some (0, 9)
  ∧ first_trim (raw_window t 0 9) newline
  ∧ strip newline = []
  ∧ _search_in_text (T "advantage") t = Some [].
Proof.
  split; [reflexivity|]. split; [|split; reflexivity].
  left. exists 9. split; [|split; [lia|reflexivity]].
  exact (find_nonneg terminator (T "Advantage. " ++ newline)
           ltac:(vm_compute; discriminate)).
Qed.

(** C1. The search loses a match in a short text: the core text of the
    specification's scenario A contains the term, the excerpt returned is
    the empty string, and [query_rule] reports no core rule. *)
Theorem search_in_text_empty_on_match :
  let term := T "advantage" in
  let t := T "Advantage: roll twice, take the higher." in
  ∃ self,
    new_RulesArbiter {| cd_name := None; cd_files := None |}
      {[ "house-rules"%string := t ]} = inr self
    ∧ search_escaped_ci term t = Some (0, 9)
    ∧ rfind (raw_window t 0 9) terminator = (-1)%Z
    ∧ _search_in_text term t = Some []
    ∧ qr_coreRule (query_rule self term []) = None
    ∧ qr_sources (query_rule self term []) = [].
Proof. eexists. repeat split; reflexivity. Qed.

(** ** Searching with a matcher *)

Lemma search_from_Some m t i s e :
  search_from m t i = Some (s, e) →
  i ≤ s ∧ s - i ≤ length t ∧ s ≤ e
  ∧ m (drop (s - i) t) = Some (e - s)
  ∧ ∀ k, k < s - i → m (drop k t) = None.
Proof.
  revert i; induction t as [|c t IH]; intros i; simpl.
  - destruct (m []) as [n|] eqn:E; [|done].
    intros [= <- <-]. replace (i - i) with 0 by lia.
    replace (i + n - i) with n by lia. repeat split; auto; lia.
  - destruct (m (c :: t)) as [n|] eqn:E.
    + intros [= <- <-]. replace (i - i) with 0 by lia.
      replace (i + n - i) with n by lia. repeat split; auto; lia.
    + intros H. apply IH in H as (Hle & Hlen & Hse & Hm & Hmin).
      replace (s - i) with (S (s - S i)) by lia.
      repeat split; simpl; auto; try lia.
      intros [|k] Hk; [done|]. apply Hmin. lia.
Qed.

Lemma line_start_from_cons bol c t k :
  line_start_from bol (c :: t) (S k) ↔ line_start_from (is_newline c) t k.
Proof.
  destruct k; simpl; [|done]. unfold is_newline.
  split; [intros [= ->]; by rewrite bool_decide_eq_true|].
  rewrite bool_decide_eq_true. by intros ->.
Qed.

Lemma search_line_start_Some m t bol i p e :
  search_line_start m t bol i = Some (p, e) →
  i ≤ p ∧ p - i ≤ length t ∧ p ≤ e
  ∧ line_start_from bol t (p - i)
  ∧ m (drop (p - i) t) = Some (e - p)
  ∧ ∀ k, k < p - i → line_start_from bol t k → m (drop k t) = None.
Proof.
  revert bol i; induction t as [|c t IH]; intros bol i; simpl.
  - destruct bol; [|done]. destruct (m []) as [n|] eqn:E; [|done].
    intros [= <- <-]. replace (i - i) with 0 by lia.
    replace (i + n - i) with n by lia. repeat split; auto; lia.
  - destruct (if bol then m (c :: t) else None) as [n|] eqn:E.
    + intros [= <- <-]. replace (i - i) with 0 by lia.
      replace (i + n - i) with n by lia.
      destruct bol; [|done]. repeat split; auto; lia.
    + intros H. apply IH in H as (Hle & Hlen & Hpe & Hls & Hm & Hmin).
      replace (p - i) with (S (p - S i)) by lia.
      split; [lia|]. split; [simpl; lia|]. split; [lia|].
      split; [by apply line_start_from_cons|]. split; [done|].
      intros [|k] Hk.
      * simpl. by intros ->.
      * rewrite line_start_from_cons. apply Hmin. lia.
Qed.

Lemma search_line_start_None m t bol i :
  search_line_start m t bol i = None →
  ∀ k, k ≤ length t → line_start_from bol t k → m (drop k t) = None.
Proof.
  revert bol i; induction t as [|c t IH]; intros bol i; simpl.
  - destruct bol.
    + destruct (m []) eqn:E; [done|]. by intros _ [|k] ? ?.
    + intros _ [|k] Hk; [done|]. lia.
  - destruct (if bol then m (c :: t) else None) as [n|] eqn:E; [done|].
    intros H [|k] Hk.
    + simpl. by intros ->.
    + rewrite line_start_from_cons. simpl. eapply IH; [done|lia].
Qed.

(** ** The heading patterns *)

Lemma span_len_le P t : span_len P t ≤ length t.
Proof. induction t as [|c t IH]; simpl; [lia|]. destruct (P c); simpl; lia. Qed.

Lemma span_len_lookup P t k :
  k < span_len P t → ∃ c, t !! k = Some c ∧ P c = true.
Proof.
  revert k; induction t as [|c t IH]; intros k; simpl; [lia|].
  destruct (P c) eqn:E; [|lia].
  destruct k as [|k]; simpl; [eauto|]. intros H. apply IH. lia.
Qed.

Lemma span_len_stop P t c :
  t !! span_len P t = Some c → P c = false.
Proof.
  induction t as [|a t IH]; simpl; [done|].
  destruct (P a) eqn:E; simpl; [done|]. by intros [= <-].
Qed.

Lemma is_space_hash c : is_hash c = true → is_space c = false.
Proof. unfold is_hash. rewrite bool_decide_eq_true. by intros ->. Qed.

Lemma drop_head_lookup (t : text) k :
  match drop k t with c :: _ => t !! k = Some c | [] => t !! k = None end.
Proof.
  revert k; induction t as [|a t IH]; intros [|k]; simpl; try done. apply IH.
Qed.

Lemma hashes_then_space_Some t k n :
  k ≤ span_len is_hash t →
  hashes_then_space t k = Some n →
  ∃ c, 1 ≤ span_len is_hash t ∧ span_len is_hash t ≤ k
       ∧ t !! span_len is_hash t = Some c ∧ is_space c = true
       ∧ n = S (span_len is_hash t).
Proof.
  induction k as [|k IH]; simpl; [done|]. intros Hk.
  pose proof (drop_head_lookup t (S k)) as Hd.
  destruct (drop (S k) t) as [|c r].
  - intros H. apply IH in H as (c & ? & ? & ? & ? & ?); [|lia].
    exists c. repeat split; auto; lia.
  - destruct (is_space c) eqn:Es.
    + intros [= <-].
      destruct (decide (S k = span_len is_hash t)) as [Heq|Hne].
      * exists c. rewrite <- Heq. repeat split; auto; lia.
      * destruct (span_len_lookup is_hash t (S k)) as (c' & Hc' & Hh);
          [lia|].
        rewrite Hd in Hc'. injection Hc' as <-.
        apply is_space_hash in Hh. congruence.
    + intros H. apply IH in H as (c0 & ? & ? & ? & ? & ?); [|lia].
      exists c0. repeat split; auto; lia.
Qed.

Lemma hashes_then_space_at_span t c :
  1 ≤ span_len is_hash t →
  t !! span_len is_hash t = Some c → is_space c = true →
  hashes_then_space t (span_len is_hash t) = Some (S (span_len is_hash t)).
Proof.
  intros H1 Hc Hs. destruct (span_len is_hash t) as [|k] eqn:E; [lia|].
  simpl. pose proof (drop_head_lookup t (S k)) as Hd.
  destruct (drop (S k) t) as [|c' r]; [congruence|].
  rewrite Hd in Hc. injection Hc as ->. by rewrite Hs.
Qed.

(** The pattern of the next heading matches at the head of [t] exactly
    when [t] opens with between 1 and [d] hashes and a whitespace
    character behind them. *)
Lemma match_next_heading_Some d t n :
  match_next_heading d t = Some n ↔
  ∃ c, 1 ≤ span_len is_hash t ∧ span_len is_hash t ≤ d
       ∧ t !! span_len is_hash t = Some c ∧ is_space c = true
       ∧ n = S (span_len is_hash t).
Proof.
  unfold match_next_heading. split.
  - intros H. apply hashes_then_space_Some in H as (c & ? & ? & ? & ? & ?);
      [|lia].
    exists c. repeat split; auto; lia.
  - intros (c & H1 & Hd & Hc & Hs & ->).
    rewrite Nat.min_l by lia. by eapply hashes_then_space_at_span.
Qed.

Lemma match_next_heading_None d t :
  match_next_heading d t = None ↔
  ¬ ∃ c, 1 ≤ span_len is_hash t ∧ span_len is_hash t ≤ d
         ∧ t !! span_len is_hash t = Some c ∧ is_space c = true.
Proof.
  split.
  - intros H (c & ? & ? & ? & ?).
    assert (match_next_heading d t = Some (S (span_len is_hash t)))
      by (apply match_next_heading_Some; eauto 10).
    congruence.
  - intros H. destruct (match_next_heading d t) as [n|] eqn:E; [|done].
    apply match_next_heading_Some in E as (c & ? & ? & ? & ? & ?).
    destruct H; eauto 10.
Qed.

Lemma literal_ci_length name t :
  literal_ci name t = true → length name ≤ length t.
Proof.
  unfold literal_ci. intros H%starts_with_length.
  by rewrite !lower_length in H.
Qed.

Lemma ws_then_name_Some name t j n :
  j ≤ length t → ws_then_name name t j = Some n → n ≤ length t.
Proof.
  induction j as [|j IH]; simpl; intros Hj.
  - rewrite drop_0. destruct (literal_ci name t) eqn:E; [|done].
    intros [= <-]. apply literal_ci_length in E. simpl. lia.
  - destruct (literal_ci name (drop (S j) t)) eqn:E.
    + intros [= <-]. apply literal_ci_length in E.
      rewrite length_drop in E. lia.
    + intros H. apply IH in H; lia.
Qed.

Lemma hashes_then_name_Some name t k n :
  k ≤ span_len is_hash t → hashes_then_name name t k = Some n →
  1 ≤ span_len is_hash t ∧ 1 ≤ n ∧ n ≤ length t.
Proof.
  induction k as [|k IH]; simpl; [done|]. intros Hk.
  pose proof (span_len_le is_hash t) as Hspan.
  destruct (ws_then_name name (drop (S k) t)
              (span_len is_space (drop (S k) t))) as [n'|] eqn:E.
  - intros [= <-]. apply ws_then_name_Some in E; [|apply span_len_le].
    rewrite length_drop in E. lia.
  - intros H. apply IH in H; lia.
Qed.

(** A match of the heading pattern starts on a hash and lies within the
    text. *)
Lemma match_heading_Some name t n :
  match_heading name t = Some n →
  1 ≤ span_len is_hash t ∧ 1 ≤ n ∧ n ≤ length t.
Proof. unfold match_heading. by apply hashes_then_name_Some. Qed.

Lemma match_hashes_Some t :
  1 ≤ span_len is_hash t → match_hashes t = Some (span_len is_hash t).
Proof. unfold match_hashes. destruct (span_len is_hash t); [lia|done]. Qed.

(** ** _extract_section *)

(** The code's search for the next heading, read on the positions of the
    whole text. *)
Lemma heading_line_at_search t mend d p :
  mend ≤ length t →
  heading_line_at t mend d p →
  p - mend ≤ length (drop mend t)
  ∧ line_start_from true (drop mend t) (p - mend)
  ∧ match_next_heading d (drop (p - mend) (drop mend t)) ≠ None.
Proof.
  intros Hmend (Hp & Hstart & k & c & Hk & Hspan & Hc & Hs).
  apply lookup_lt_Some in Hc as Hlt.
  rewrite drop_drop, length_drop.
  replace (mend + (p - mend)) with p by lia.
  split; [lia|]. split.
  - destruct (p - mend) as [|q] eqn:E; simpl; [done|].
    destruct Hstart as [->|Hnl]; [lia|].
    rewrite lookup_drop. by replace (mend + q) with (p - 1) by lia.
  - rewrite match_next_heading_None. intros []. exists c.
    rewrite Hspan, lookup_drop. repeat split; auto; lia.
Qed.

Lemma search_heading_line_at t mend d q n :
  line_start_from true (drop mend t) q →
  match_next_heading d (drop q (drop mend t)) = Some n →
  heading_line_at t mend d (mend + q) ∧ mend + q < length t.
Proof.
  intros Hls Hm. rewrite drop_drop in Hm.
  apply match_next_heading_Some in Hm as (c & H1 & Hd & Hc & Hs & _).
  rewrite lookup_drop in Hc. apply lookup_lt_Some in Hc as Hlt.
  split; [|lia]. split; [lia|]. split.
  - destruct q as [|q]; simpl in Hls; [left; lia|right].
    rewrite lookup_drop in Hls.
    by replace (mend + S q - 1) with (mend + q) by lia.
  - exists (span_len is_hash (drop (mend + q) t)), c. repeat split; auto.
Qed.

(** The defect behind C3 in general: when the characters right behind the
    match are hashes, no more than the heading has, and a whitespace
    character, the search for the next heading stops there, and the
    section returned is the matched text alone. The pattern of that search
    begins with [^], and the search runs on the slice [text[match.end():]],
    whose first position is the start of a line for the pattern whatever
    stands before it in the text. *)
Lemma extract_section_cut_behind_match t name start mend :
  search_from (match_heading name) t 0 = Some (start, mend) →
  match_next_heading (span_len is_hash (drop start t)) (drop mend t) ≠ None →
  _extract_section t name
  = inr (Some (strip (take (mend - start) (drop start t)))).
Proof.
  intros Hsearch Hnext. unfold _extract_section. rewrite Hsearch.
  apply search_from_Some in Hsearch as (_ & _ & _ & Hm & _).
  rewrite Nat.sub_0_r in Hm.
  apply match_heading_Some in Hm as (Hd & _).
  rewrite (match_hashes_Some _ Hd).
  set (m := match_next_heading (span_len is_hash (drop start t))) in *.
  destruct (m (drop mend t)) as [n|] eqn:E; [|done].
  assert (search_line_start m (drop mend t) true 0 = Some (0, 0 + n)) as ->
    by (destruct (drop mend t); cbn [search_line_start]; by rewrite E).
  by rewrite Nat.add_0_r.
Qed.

(** C3. The section is cut inside the line of its own heading: the name
    [C] matches the start of the heading [## C# rules], the text behind
    the match begins with a hash and a space, the search for the next
    heading takes that place for a heading line, and the section returned
    is [## C]; the next heading line of depth at most 2 is [## Magic], and
    the section up to it holds the whole heading line and the body. *)
Theorem extract_section_cut_in_heading_line :
  let t := T "## C# rules" ++ newline ++ T "body" ++ newline ++ T "## Magic" in
  search_from (match_heading (T "C")) t 0 = Some (0, 4)
  ∧ match_hashes t = Some 2
  ∧ t !! 3 = Some "C"%char
  ∧ search_line_start (match_next_heading 2) (drop 4 t) true 0 = Some (0, 2)
  ∧ search_line_start (match_next_heading 2) (drop 4 t) false 0
    = Some (13, 16)
  ∧ _extract_section t (T "C") = inr (Some (T "## C"))
  ∧ extract_section_claimed t (T "C")
    = Some (T "## C# rules" ++ newline ++ T "body")
  ∧ _extract_section t (T "C") ≠ inr (extract_section_claimed t (T "C")).
Proof. repeat split; try reflexivity. vm_compute. discriminate. Qed.

(** Where the place behind the match is no heading line in the sense of
    the code, the code and the reading of the specification agree on the
    sample document. *)
Lemma extract_section_claimed_sample :
  _extract_section sample_document (T "combat")
  = inr (extract_section_claimed sample_document (T "combat")).
Proof. reflexivity. Qed.

(** ** No operation raises *)

Lemma extract_section_returns t name :
  ∃ section, _extract_section t name = inr section.
Proof.
  unfold _extract_section.
  destruct (search_from (match_heading name) t 0) as [[start mend]|] eqn:E;
    [|eauto].
  apply search_from_Some in E as (_ & _ & _ & Hm & _).
  apply match_heading_Some in Hm as (Hd & _).
  rewrite Nat.sub_0_r in Hd. rewrite (match_hashes_Some _ Hd). eauto.
Qed.

Lemma extract_section_unmatched t name :
  search_from (match_heading name) t 0 = None →
  _extract_section t name = inr None.
Proof. unfold _extract_section. by intros ->. Qed.

Lemma check_house_rules_returns self rule_category :
  ∃ r, check_house_rules self rule_category = inr r.
Proof.
  unfold check_house_rules.
  destruct (house_rules self) as [|c rules]; [eauto|].
  destruct (truthy rule_category); [|eauto].
  destruct (extract_section_returns (c :: rules) (excerpt rule_category))
    as [section ->].
  eauto.
Qed.

Lemma search_in_text_unmatched term t :
  contains (lower t) (lower term) = false → _search_in_text term t = None.
Proof.
  unfold contains, _search_in_text, search_escaped_ci.
  destruct (find_from (lower term) (lower t) 0); [done|].
  by destruct (bool_decide (t = []) || bool_decide (term = [])).
Qed.

Lemma related_for_unmatched self kw :
  contains (lower (core_text self)) (lower kw) = false →
  contains (lower (house_rules self)) (lower kw) = false →
  related_for self kw = [].
Proof.
  intros Hc Hh. unfold related_for.
  by rewrite (search_in_text_unmatched _ _ Hc),
    (search_in_text_unmatched _ _ Hh).
Qed.

(** C9. Each of the four resolver operations returns a result and none
    raises, whatever the strings it is given and whatever the texts of the
    arbiter; a query without a match is answered by a result with empty
    fields or a not-found text. *)
Theorem resolver_operations_total (self : RulesArbiter) :
  (∀ op, ∃ r, run_operation self op = inr r)
  ∧ (∀ rule_name context,
       contains (lower (core_text self)) (lower rule_name) = false →
       contains (lower (house_rules self)) (lower rule_name) = false →
       let r := query_rule self rule_name context in
       qr_coreRule r = None ∧ qr_houseRule r = None ∧ qr_sources r = []
       ∧ qr_recommendation r
         = T "No specific rule found for '" ++ rule_name
           ++ T "'. Use standard 5e rules or make a ruling.")
  ∧ (∀ category,
       house_rules self ≠ [] → category ≠ [] →
       search_from (match_heading category) (house_rules self) 0 = None →
       check_house_rules self (Some category)
       = inr (HouseRulesCategory (campaign_name self) category
                (T "No rules found for category: " ++ category)
                (house_rules self)))
  ∧ (∀ rule_name,
       contains (lower (core_text self)) (lower rule_name) = false →
       contains (lower (house_rules self)) (lower rule_name) = false →
       let r := compare_rules self rule_name in
       coreDefined r = false ∧ campaignOverride r = false
       ∧ differences r = [] ∧ cmp_recommendation r = T "Use standard 5e")
  ∧ (∀ sit,
       (∀ kw, kw ∈ _extract_keywords sit →
              contains (lower (core_text self)) (lower kw) = false
              ∧ contains (lower (house_rules self)) (lower kw) = false) →
       let r := resolve_edge_case self sit in
       relatedRules r = [] ∧ suggestion r = fallback_suggestion).
Proof.
  split; [|split; [|split; [|split]]].
  - intros [rule_name context|rule_category|rule_name|sit]; simpl; eauto.
    destruct (check_house_rules_returns self rule_category) as [r ->]. eauto.
  - intros rule_name context Hc Hh. unfold query_rule; simpl.
    by rewrite (search_in_text_unmatched _ _ Hc),
      (search_in_text_unmatched _ _ Hh).
  - intros category Hrules Hcat Hsearch. unfold check_house_rules.
    destruct (house_rules self) as [|c rules] eqn:E; [done|].
    destruct category as [|a category]; [done|]. simpl.
    by rewrite (extract_section_unmatched _ _ Hsearch).
  - intros rule_name Hc Hh. unfold compare_rules; simpl.
    by rewrite (search_in_text_unmatched _ _ Hc),
      (search_in_text_unmatched _ _ Hh).
  - intros sit Hkw. unfold resolve_edge_case; simpl.
    rewrite (fold_left_app_concat (related_for self)); simpl.
    assert (concat (map (related_for self) (_extract_keywords sit)) = [])
      as ->; [|done].
    induction (_extract_keywords sit) as [|kw kws IH]; simpl; [done|].
    destruct (Hkw kw) as [Hc Hh]; [left|].
    rewrite (related_for_unmatched _ _ Hc Hh), IH; [done|].
    intros kw' Hin. apply Hkw. by right.
Qed.

Lemma resolver_operations_total_witness :
  let r := query_rule sample_arbiter (T "grapple") [] in
  qr_coreRule r = None ∧ qr_houseRule r = None ∧ qr_sources r = []
  ∧ qr_recommendation r
    = T "No specific rule found for 'grapple'. Use standard 5e rules or make a ruling.".
Proof.
  apply (proj1 (proj2 (resolver_operations_total sample_arbiter))
           (T "grapple") []); reflexivity.
Defined.

(** ** The house rules of a campaign *)

(** The defect behind C10 in general: when the entry that
    [_extract_house_rules] selects is the dict of a directory, the
    arbiter is not built. *)
Lemma new_RulesArbiter_directory (cd : CampaignData) (core : gmap string text)
  (dir_files : gmap string FileEntry) :
  let files := default ∅ (cd_files cd) in
  files !! "houseRules"%string = Some (Directory dir_files)
  ∨ (files !! "houseRules"%string = None
     ∧ files !! "rules"%string = Some (Directory dir_files)) →
  new_RulesArbiter cd core = inl KeyError.
Proof.
  unfold new_RulesArbiter, _extract_house_rules.
  by intros [->|[-> ->]].
Qed.

(** C10. A legacy campaign whose [rules] path names a directory: the
    loader stores the dict of the directory under the key [rules], there
    is no key [houseRules], and the construction of the arbiter raises
    [KeyError] on the subscript [content] instead of taking the house
    rules from the entry; a switch to the campaign is answered by the
    error text, and a server with this active campaign does not start. *)
Theorem house_rules_directory_raises :
  let loader := {| config := sample_config; active_campaign_name := "tomb" |} in
  let file :=
    {| campaigns := campaigns sample_config;
       activeCampaign := Some "tomb"%string;
       coreRulesPath := coreRulesPath sample_config |} in
  ∃ campaign,
    load_campaign sample_fs loader = inr campaign
    ∧ default ∅ (cd_files campaign) !! "houseRules"%string = None
    ∧ default ∅ (cd_files campaign) !! "rules"%string
      = Some (Directory
                {[ "combat.md"%string :=
                     {| path := T "campaigns/tomb/rules/combat.md";
                        content := T "Flanking grants advantage." |} ]})
    ∧ _extract_house_rules campaign = inl KeyError
    ∧ new_RulesArbiter campaign sample_core_rules = inl KeyError
    ∧ fst (call_tool_switch_campaign sample_fs sample_server "tomb")
      = ToolError KeyError
    ∧ initialize_server sample_fs file = inl KeyError.
Proof. eexists. repeat split; vm_compute; reflexivity. Qed.

(** ** Switching to an unknown campaign *)

(** C8. For a campaign identifier that is not configured,
    [switch_campaign] returns false and leaves the loader (with its active
    campaign) and the configuration file as they are; the tool call
    answers that the campaign was not found and leaves the whole server
    state, the arbiter included, unchanged, so that a later [query_rule]
    answers as before, from the house rules of the prior campaign. *)
Theorem switch_unknown_campaign
  (fs : FileSystem) (st : Server) (name : string) :
  campaigns (config (campaign_loader st)) !! name = None →
  switch_campaign (campaign_loader st) (config_file st) name
  = (false, campaign_loader st, config_file st)
  ∧ call_tool_switch_campaign fs st name = (CampaignNotFound name, st)
  ∧ ∀ rule_name context,
      call_tool_query_rule
        (snd (call_tool_switch_campaign fs st name))
        rule_name context
      = query_rule (rules_arbiter st) rule_name context.
Proof.
  intros Hname.
  assert (Hswitch : switch_campaign (campaign_loader st) (config_file st) name
                    = (false, campaign_loader st, config_file st))
    by (unfold switch_campaign; by rewrite Hname).
  assert (Hcall : call_tool_switch_campaign fs st name
                  = (CampaignNotFound name, st))
    by (unfold call_tool_switch_campaign; rewrite Hswitch; by destruct st).
  split; [done|]. split; [done|].
  intros rule_name context. by rewrite Hcall.
Qed.

Lemma switch_unknown_campaign_witness :
  call_tool_switch_campaign sample_fs sample_server "ravenloft"
  = (CampaignNotFound "ravenloft", sample_server)
  ∧ active_campaign_name (campaign_loader sample_server) = "fragments"%string.
Proof.
  split; [|reflexivity].
  apply (switch_unknown_campaign sample_fs sample_server "ravenloft").
  reflexivity.
Defined.

(** * Further properties of the code *)

(** ** strip *)

Lemma lstrip_split t :
  ∃ sp, t = sp ++ lstrip t ∧ Forall (λ c, is_space c = true) sp.
Proof.
  induction t as [|c t (sp & Ht & Hsp)]; simpl.
  - by exists [].
  - destruct (is_space c) eqn:E.
    + exists (c :: sp). split; [simpl; by f_equal|by constructor].
    + by exists [].
Qed.

Lemma lstrip_head t c : head (lstrip t) = Some c → is_space c = false.
Proof.
  induction t as [|a t IH]; simpl; [done|].
  destruct (is_space a) eqn:E; [done|]. simpl. by intros [= <-].
Qed.

Lemma rstrip_split t :
  ∃ sp, t = rstrip t ++ sp ∧ Forall (λ c, is_space c = true) sp.
Proof.
  unfold rstrip. destruct (lstrip_split (rev t)) as (sp & Ht & Hsp).
  exists (rev sp). split.
  - by rewrite <- rev_app_distr, <- Ht, rev_involutive.
  - by apply Forall_rev.
Qed.

Lemma last_rev_head (t : text) : last (rev t) = head t.
Proof. destruct t as [|c t]; simpl; [done|]. by rewrite last_snoc. Qed.

Lemma strip_piece_of t : piece_of (strip t) t.
Proof.
  unfold strip. destruct (lstrip_split t) as (a & Ha & _).
  destruct (rstrip_split (lstrip t)) as (b & Hb & _).
  exists a, b. by rewrite <- Hb.
Qed.

Lemma strip_trimmed t : trimmed (strip t).
Proof.
  unfold strip. split.
  - intros c Hc. destruct (rstrip_split (lstrip t)) as (b & Hb & _).
    apply (lstrip_head t). rewrite Hb.
    by destruct (rstrip (lstrip t)).
  - intros c. unfold rstrip. rewrite last_rev_head. apply lstrip_head.
Qed.

Lemma piece_of_length e t : piece_of e t → length e ≤ length t.
Proof. intros (a & b & ->). rewrite !length_app. lia. Qed.

Lemma piece_of_trans e u t : piece_of e u → piece_of u t → piece_of e t.
Proof.
  intros (a & b & ->) (a' & b' & ->).
  exists (a' ++ a), (b ++ b'). by rewrite <- !app_assoc.
Qed.

Lemma piece_of_take n (t : text) : piece_of (take n t) t.
Proof. exists [], (drop n t). simpl. by rewrite take_drop. Qed.

Lemma piece_of_drop n (t : text) : piece_of (drop n t) t.
Proof. exists (take n t), []. by rewrite app_nil_r, take_drop. Qed.

Lemma piece_of_refl (t : text) : piece_of t t.
Proof. exists [], []. by rewrite app_nil_r. Qed.

(** ** The excerpt of a search *)

(** What a successful search returns: the match, and the excerpt as the
    stripped form of a piece of the raw window. *)
Lemma search_in_text_Some term t e :
  _search_in_text term t = Some e →
  ∃ mstart w,
    t ≠ [] ∧ term ≠ []
    ∧ search_escaped_ci term t = Some (mstart, mstart + length term)
    ∧ piece_of w (raw_window t mstart (mstart + length term))
    ∧ e = strip w.
Proof.
  unfold _search_in_text.
  destruct (bool_decide (t = [])) eqn:Et; [done|].
  destruct (bool_decide (term = [])) eqn:Em; [done|].
  apply bool_decide_eq_false in Et, Em. simpl orb. cbv iota.
  unfold search_escaped_ci.
  destruct (find_from (lower term) (lower t) 0) as [i|] eqn:F; [|done].
  fold (raw_window t i (i + length term)).
  set (w := raw_window t i (i + length term)). cbv zeta.
  set (w1 := if _ && _ then _ else w).
  set (w2 := if (_ <? _)%Z then _ else w1).
  intros [= <-]. exists i, w2.
  split; [done|]. split; [done|]. split; [done|]. split; [|done].
  assert (piece_of w1 w) as Hw1.
  { unfold w1. destruct (_ && _); [apply piece_of_drop|apply piece_of_refl]. }
  change (piece_of w2 w). unfold w2.
  destruct (len w1 - 100 <? rfind w1 (T ". "))%Z; [|exact Hw1].
  eapply piece_of_trans; [apply piece_of_take|exact Hw1].
Qed.

Lemma raw_window_piece_of t mstart mend : piece_of (raw_window t mstart mend) t.
Proof.
  unfold raw_window, slice.
  eapply piece_of_trans; [apply piece_of_take|apply piece_of_drop].
Qed.

Lemma raw_window_length t mstart n :
  length (raw_window t mstart (mstart + n)) ≤ n + 600.
Proof.
  unfold raw_window, slice. rewrite length_take, length_drop.
  unfold norm_index, len.
  destruct (Z.ltb_spec (Z.max 0 (Z.of_nat mstart - 300)) 0);
    destruct (Z.ltb_spec
                (Z.min (Z.of_nat (length t)) (Z.of_nat (mstart + n) + 300)) 0);
    lia.
Qed.

(** X1. [_search_in_text] answers [None] exactly when the text is empty,
    the term is empty, or the term does not occur in the text without
    regard to case; in every other case it answers with an excerpt. *)
Theorem search_in_text_None_iff (term t : text) :
  _search_in_text term t = None
  ↔ t = [] ∨ term = [] ∨ contains (lower t) (lower term) = false.
Proof.
  unfold _search_in_text, search_escaped_ci, contains.
  destruct (bool_decide (t = [])) eqn:Et.
  { apply bool_decide_eq_true in Et. simpl. split; [by left|done]. }
  destruct (bool_decide (term = [])) eqn:Em.
  { apply bool_decide_eq_true in Em. simpl. split; [by right; left|done]. }
  apply bool_decide_eq_false in Et, Em. simpl.
  destruct (find_from (lower term) (lower t) 0).
  - split; [done|]. by intros [?|[?|?]].
  - split; [|done]. intros _. by right; right.
Qed.

(** X2. The excerpt of a search is never longer than the term plus 600
    characters. *)
Theorem search_in_text_length (term t e : text) :
  _search_in_text term t = Some e → length e ≤ length term + 600.
Proof.
  intros (ms & w & _ & _ & _ & Hw & ->)%search_in_text_Some.
  pose proof (piece_of_length _ _ (strip_piece_of w)).
  pose proof (piece_of_length _ _ Hw).
  pose proof (raw_window_length t ms (length term)). lia.
Qed.

Lemma search_in_text_length_witness :
  length (T "Advantage means rolling twice.") ≤ length (T "advantage") + 600.
Proof.
  apply (search_in_text_length (T "advantage") sample_core_text).
  reflexivity.
Defined.

(** X3. The excerpt of a search is a contiguous piece of the searched text,
    in the text's own case, and it neither starts nor ends with a
    whitespace character. *)
Theorem search_in_text_piece (term t e : text) :
  _search_in_text term t = Some e → piece_of e t ∧ trimmed e.
Proof.
  intros (ms & w & _ & _ & _ & Hw & ->)%search_in_text_Some.
  split; [|apply strip_trimmed].
  eapply piece_of_trans; [apply strip_piece_of|].
  eapply piece_of_trans; [done|apply raw_window_piece_of].
Qed.

Lemma search_in_text_piece_witness :
  piece_of (T "Advantage means rolling twice.") sample_core_text
  ∧ trimmed (T "Advantage means rolling twice.").
Proof.
  apply (search_in_text_piece (T "advantage") sample_core_text).
  reflexivity.
Defined.

Lemma same_ignoring_case_lower a b :
  same_ignoring_case a b → lower a = lower b ∧ length a = length b.
Proof.
  induction 1 as [|x y a b Hxy _ [IH1 IH2]]; [done|].
  simpl. by rewrite Hxy, IH1, IH2.
Qed.

(** X4. The search does not depend on the case of the letters of the
    term: two terms of the same length whose characters are pairwise the
    same up to case, as [re.IGNORECASE] compares them, give the same
    answer on every text. *)
Theorem search_in_text_term_case (term1 term2 t : text) :
  same_ignoring_case term1 term2 →
  _search_in_text term1 t = _search_in_text term2 t.
Proof.
  intros [Hl Hlen]%same_ignoring_case_lower.
  unfold _search_in_text, search_escaped_ci. rewrite Hl, Hlen.
  destruct term1, term2; simpl in Hlen; try done.
Qed.

Lemma search_in_text_term_case_witness :
  _search_in_text (T "ADVantage") sample_core_text
  = _search_in_text (T "advantage") sample_core_text.
Proof.
  apply (search_in_text_term_case (T "ADVantage") (T "advantage")).
  repeat constructor.
Defined.

(** ** The extent of a section *)

(** X25. When [_extract_section] matches a heading at [start], of depth
    [d] and with its text ending at [mend], the section returned is the
    text from [start] up to the first place at or behind [mend] that the
    code takes for a heading line of depth at most [d]: the place [mend]
    itself or a place right behind a newline, with between 1 and [d]
    hashes and a whitespace character; without such a place the section
    runs to the end of the text. The surrounding whitespace is removed. A
    line with more than [d] hashes never ends the section, so the deeper
    headings in between belong to it. *)
Theorem extract_section_extent (t name : text) (start mend : nat) :
  search_from (match_heading name) t 0 = Some (start, mend) →
  section_extent t name start mend.
Proof.
  intros Hsearch. unfold section_extent, _extract_section. rewrite Hsearch.
  apply search_from_Some in Hsearch as (_ & Hlen & Hse & Hm & _).
  rewrite Nat.sub_0_r in Hm, Hlen.
  apply match_heading_Some in Hm as (Hd & Hn & Hnlen).
  rewrite length_drop in Hnlen.
  rewrite (match_hashes_Some _ Hd).
  set (d := span_len is_hash (drop start t)) in *.
  assert (Hdeep : ∀ p k, span_len is_hash (drop p t) = k → d < k →
                         ¬ heading_line_at t mend d p).
  { intros p k Hk Hlt (_ & _ & k' & c & Hk' & Hspan & _). lia. }
  destruct (search_line_start (match_next_heading d) (drop mend t) true 0)
    as [[ns ne]|] eqn:Hnext.
  - apply search_line_start_Some in Hnext
      as (_ & Hns & _ & Hls & Hmatch & Hmin).
    rewrite Nat.sub_0_r in Hns, Hls, Hmatch, Hmin.
    rewrite length_drop in Hns.
    destruct (search_heading_line_at _ _ _ _ _ Hls Hmatch) as [Hhead Hlt].
    exists (mend + ns). repeat split; auto; try lia.
    right. split; [done|]. intros p Hp Hheading.
    assert (mend ≤ p) by apply Hheading.
    apply heading_line_at_search in Hheading as (_ & Hls' & Hsome); [|lia].
    apply Hsome, Hmin; [lia|done].
  - exists (length t). repeat split; auto; try lia.
    left. split; [done|]. intros p Hheading.
    apply heading_line_at_search in Hheading as (Hp & Hls' & Hsome); [|lia].
    apply Hsome. by eapply search_line_start_None.
Qed.

Lemma extract_section_extent_witness :
  search_from (match_heading (T "combat")) sample_document 0 = Some (0, 8)
  ∧ section_extent sample_document (T "combat") 0 8
  ∧ _extract_section sample_document (T "combat")
    = inr (Some (T "# Combat" ++ newline ++ T "Roll initiative." ++ newline
                 ++ T "## Flanking" ++ newline
                 ++ T "Flanking grants advantage.")).
Proof.
  split; [reflexivity|]. split; [|reflexivity].
  apply (extract_section_extent sample_document (T "combat") 0 8).
  reflexivity.
Defined.

(** ** The section of a heading *)

Lemma strip_head t c :
  head t = Some c → is_space c = false → head (strip t) = Some c.
Proof.
  intros Hc Hs. destruct t as [|a t]; [done|]. simpl in Hc.
  injection Hc as ->. unfold strip. simpl. rewrite Hs.
  destruct (rstrip_split (c :: t)) as (sp & Hsplit & Hsp).
  destruct (rstrip (c :: t)) as [|a r]; simpl in Hsplit.
  - rewrite <- Hsplit in Hsp. apply Forall_cons_1 in Hsp as [Hc _]. congruence.
  - by injection Hsplit as <- _.
Qed.

Lemma span_len_head P t :
  1 ≤ span_len P t → ∃ c, head t = Some c ∧ P c = true.
Proof.
  destruct t as [|c t]; simpl; [lia|].
  destruct (P c) eqn:E; [eauto|lia].
Qed.

(** What a found section is made of. *)
Lemma extract_section_Some t name s :
  _extract_section t name = inr (Some s) →
  ∃ start stop,
    start < stop ∧ head (drop start t) = Some "#"%char
    ∧ s = strip (take (stop - start) (drop start t)).
Proof.
  unfold _extract_section.
  destruct (search_from (match_heading name) t 0) as [[start mend]|] eqn:E;
    [|done].
  apply search_from_Some in E as (_ & _ & _ & Hm & _).
  rewrite Nat.sub_0_r in Hm.
  apply match_heading_Some in Hm as (Hd & Hn & Hlen).
  rewrite length_drop in Hlen.
  rewrite (match_hashes_Some _ Hd).
  destruct (span_len_head _ _ Hd) as (c & Hc & Hh).
  unfold is_hash in Hh. apply bool_decide_eq_true in Hh as ->.
  set (stop := match search_line_start _ _ _ _ with
               | Some (nstart, _) => mend + nstart
               | None => length t
               end).
  intros [= <-]. exists start, stop. split; [|done].
  unfold stop. destruct (search_line_start _ _ _ _) as [[? ?]|]; lia.
Qed.

(** X5. A section returned by [_extract_section] is a contiguous piece of
    the text that begins with the hash of its heading and neither starts
    nor ends with a whitespace character; so it is never empty and never
    mistaken for the not-found text of [check_house_rules]. *)
Theorem extract_section_shape (t name s : text) :
  _extract_section t name = inr (Some s) →
  head s = Some "#"%char ∧ piece_of s t ∧ trimmed s.
Proof.
  intros (start & stop & Hlt & Hhead & ->)%extract_section_Some.
  split; [|split; [|apply strip_trimmed]].
  - apply strip_head; [|done].
    destruct (drop start t) as [|c r]; [done|].
    destruct (stop - start) as [|n] eqn:E; [lia|done].
  - eapply piece_of_trans; [apply strip_piece_of|].
    eapply piece_of_trans; [apply piece_of_take|apply piece_of_drop].
Qed.

Lemma extract_section_shape_witness :
  let s := T "# Combat" ++ newline ++ T "Roll initiative." ++ newline
           ++ T "## Flanking" ++ newline ++ T "Flanking grants advantage." in
  head s = Some "#"%char ∧ piece_of s sample_document ∧ trimmed s.
Proof.
  apply (extract_section_shape sample_document (T "combat")). reflexivity.
Defined.

(** ** findall *)

(** A group found by [findall_from] is the group of a match at some
    position of the text. *)
Lemma findall_from_elem m anchored t bol skip g :
  g ∈ findall_from m anchored t bol skip →
  ∃ k n, m (drop k t) = Some (g, n).
Proof.
  revert bol skip; induction t as [|c t IH]; intros bol skip.
  - destruct skip as [|skip]; simpl; [|by intros ?%elem_of_nil].
    destruct (if implb anchored bol then m [] else None) as [[g' n]|] eqn:E;
      [|by intros ?%elem_of_nil].
    intros ->%list_elem_of_singleton. exists 0, n. simpl.
    by destruct (implb anchored bol).
  - assert (Hshift : ∀ bol' skip',
               g ∈ findall_from m anchored t bol' skip' →
               ∃ k n, m (drop k (c :: t)) = Some (g, n)).
    { intros bol' skip' (k & n & Hk)%IH. by exists (S k), n. }
    destruct skip as [|skip]; simpl; [|apply Hshift].
    destruct (if implb anchored bol then m (c :: t) else None)
      as [[g' n]|] eqn:E; [|apply Hshift].
    intros [->|Hin]%elem_of_cons; [|by eapply Hshift].
    exists 0, n. simpl. by destruct (implb anchored bol).
Qed.

(** With the anchor, there is at most one match for each place where a
    line starts. *)
Lemma findall_from_anchored_length m t bol skip :
  length (findall_from m true t bol skip)
  ≤ (if bol then 1 else 0) + length (List.filter is_newline t).
Proof.
  revert bol skip; induction t as [|c t IH]; intros bol skip.
  - destruct skip; simpl; [|lia].
    destruct bol; simpl; [|lia]. destruct (m []) as [[? ?]|]; simpl; lia.
  - assert (Hrest : ∀ skip',
               length (findall_from m true t (is_newline c) skip')
               ≤ length (List.filter is_newline (c :: t))).
    { intros skip'. specialize (IH (is_newline c) skip'). simpl.
      destruct (is_newline c); simpl in *; lia. }
    set (N := length (List.filter is_newline (c :: t))) in *. clearbody N.
    destruct skip as [|skip]; simpl findall_from.
    + destruct bol; simpl implb; cbv iota.
      * destruct (m (c :: t)) as [[g n]|]; simpl length.
        -- specialize (Hrest (n - 1)). lia.
        -- specialize (Hrest 0). lia.
      * specialize (Hrest 0). lia.
    + specialize (Hrest skip). lia.
Qed.

Lemma span_len_take_Forall P (t : text) :
  Forall (λ c, P c = true) (take (span_len P t) t).
Proof.
  induction t as [|c t IH]; simpl; [constructor|].
  destruct (P c) eqn:E; simpl; [by constructor|constructor].
Qed.

Lemma span_len_take_length P (t : text) :
  length (take (span_len P t) t) = span_len P t.
Proof. rewrite length_take. pose proof (span_len_le P t). lia. Qed.

(** ** The categories of the house rules *)

Lemma ws_then_title_Some t j g n :
  ws_then_title t j = Some (g, n) →
  g ≠ [] ∧ Forall (λ c, is_dot c = true) g ∧ piece_of g t.
Proof.
  induction j as [|j IH]; simpl; [done|].
  destruct (Nat.ltb_spec 0 (span_len is_dot (drop (S j) t))) as [Hpos|_];
    [|done].
  intros [= <- _]. split; [|split].
  - intros Hnil. apply (f_equal length) in Hnil.
    rewrite span_len_take_length in Hnil. simpl in Hnil. lia.
  - apply span_len_take_Forall.
  - eapply piece_of_trans; [apply piece_of_take|apply piece_of_drop].
Qed.

Lemma match_category_line_Some t g n :
  match_category_line t = Some (g, n) →
  g ≠ [] ∧ Forall (λ c, is_dot c = true) g ∧ piece_of g t.
Proof.
  unfold match_category_line.
  induction (span_len is_hash t) as [|k IH]; simpl; [done|].
  destruct (ws_then_title (drop (S k) t) _) as [[g' n']|] eqn:E; [|done].
  intros [= <- _]. apply ws_then_title_Some in E as (? & ? & ?).
  repeat split; auto.
  eapply piece_of_trans; [done|apply piece_of_drop].
Qed.

(** X6. Every title listed by [_extract_categories] is a non-empty
    contiguous piece of the text without a newline, and there are at most
    as many titles as the text has lines. *)
Theorem extract_categories_titles (t : text) :
  (∀ title, title ∈ _extract_categories t →
            title ≠ [] ∧ Forall (λ c, is_newline c = false) title
            ∧ piece_of title t)
  ∧ length (_extract_categories t)
    ≤ 1 + length (List.filter is_newline t).
Proof.
  split.
  - intros title (k & n & Hm)%findall_from_elem.
    apply match_category_line_Some in Hm as (Hne & Hdot & Hpiece).
    split; [done|]. split.
    + eapply Forall_impl; [done|]. intros c. unfold is_dot.
      by destruct (is_newline c).
    + eapply piece_of_trans; [done|apply piece_of_drop].
  - apply (findall_from_anchored_length match_category_line t true 0).
Qed.

(** ** Keywords *)

Lemma span_len_take_le_Forall P (t : text) k :
  k ≤ span_len P t → Forall (λ c, P c = true) (take k t).
Proof.
  revert k; induction t as [|c t IH]; intros [|k]; simpl;
    try constructor; try lia.
  - destruct (P c) eqn:E; [done|lia].
  - apply IH. destruct (P c); lia.
Qed.

Lemma body_then_quote_Some t m g n :
  m ≤ span_len (λ c, negb (is_quote c)) t →
  body_then_quote t m = Some (g, n) →
  g ≠ [] ∧ Forall (λ c, is_quote c = false) g ∧ piece_of g t.
Proof.
  induction m as [|m IH]; simpl; [done|]. intros Hm.
  assert (Hback : body_then_quote t m = Some (g, n) →
                  g ≠ [] ∧ Forall (λ c, is_quote c = false) g ∧ piece_of g t)
    by (apply IH; lia).
  destruct (drop (S m) t) as [|c r] eqn:Ed; [done|].
  destruct (is_quote c); [|done].
  intros [= <- _]. split; [|split].
  - intros Hnil. apply (f_equal length) in Hnil, Ed.
    rewrite length_take in Hnil. rewrite length_drop in Ed.
    cbn [length] in Hnil, Ed. lia.
  - eapply Forall_impl; [by apply span_len_take_le_Forall|].
    intros a. simpl. by destruct (is_quote a).
  - apply piece_of_take.
Qed.

Lemma match_quoted_Some t g n :
  match_quoted t = Some (g, n) →
  g ≠ [] ∧ Forall (λ c, is_quote c = false) g ∧ piece_of g t.
Proof.
  destruct t as [|q t]; simpl; [done|]. destruct (is_quote q); [|done].
  intros (? & ? & ?)%body_then_quote_Some; [|done].
  repeat split; auto.
  eapply piece_of_trans; [done|apply (piece_of_drop 1 (q :: t))].
Qed.

Lemma filter_sublist {A} (f : A → bool) (l : list A) :
  List.filter f l `sublist_of` l.
Proof.
  induction l as [|x l IH]; simpl; [constructor|].
  destruct (f x); by constructor.
Qed.

(** X7. Every keyword is a vocabulary term that occurs in the lowered text
    or a quoted phrase of the text; the vocabulary terms come first and in
    the order of the vocabulary; a quoted phrase is a non-empty piece of
    the text without a double quote. *)
Theorem extract_keywords_origin (t : text) :
  (∀ kw, kw ∈ _extract_keywords t →
         (kw ∈ dnd_terms ∧ contains (lower t) kw = true)
         ∨ kw ∈ quoted_phrases t)
  ∧ take 5 (vocabulary_hits t) `sublist_of` dnd_terms
  ∧ (∀ phrase, phrase ∈ quoted_phrases t →
               phrase ≠ [] ∧ Forall (λ c, is_quote c = false) phrase
               ∧ piece_of phrase t).
Proof.
  split; [|split].
  - intros kw Hkw. unfold _extract_keywords in Hkw.
    apply subseteq_take, elem_of_app in Hkw as [Hv|Hq].
    + left. unfold vocabulary_hits in Hv.
      apply list_elem_of_In, filter_In in Hv as [Hin Hc].
      by rewrite list_elem_of_In.
    + right. by apply subseteq_take in Hq.
  - etrans; [apply sublist_take|apply filter_sublist].
  - intros phrase (k & n & Hm)%findall_from_elem.
    apply match_quoted_Some in Hm as (? & ? & ?).
    repeat split; auto.
    eapply piece_of_trans; [done|apply piece_of_drop].
Qed.

Lemma starts_with_app p q t :
  starts_with (p ++ q) t = true →
  starts_with p t = true ∧ starts_with q (drop (length p) t) = true.
Proof.
  revert t; induction p as [|a p IH]; intros t; simpl; [by rewrite drop_0|].
  destruct t as [|b t]; [done|].
  intros [Hab Hrest]%andb_prop. apply IH in Hrest as [? ?].
  by rewrite Hab.
Qed.

Lemma contains_occurs_at t sub :
  contains t sub = true ↔ ∃ k, occurs_at sub t k.
Proof.
  unfold contains. destruct (find_from sub t 0) as [k|] eqn:F.
  - apply find_from_Some in F as (_ & [Hocc _]). rewrite Nat.sub_0_r in Hocc.
    split; eauto.
  - split; [done|]. intros (k & Hk). by eapply find_from_None in F.
Qed.

(** A piece of a term that occurs in a text occurs in the text. *)
Lemma contains_piece_of t a b :
  piece_of a b → contains t b = true → contains t a = true.
Proof.
  intros (x & y & ->). rewrite !contains_occurs_at.
  intros (k & Hk & Hs).
  apply starts_with_app in Hs as [Hx Hs].
  apply starts_with_app in Hs as [Hs _]. rewrite drop_drop in Hs.
  exists (k + length x). split; [|done].
  apply starts_with_length in Hx. rewrite length_drop in Hx. lia.
Qed.

(** X8. The vocabulary is matched by substring: whenever a term occurs in
    the lowered text, every vocabulary term that is a piece of it is a hit
    as well (advantage with disadvantage, action with bonus action and
    reaction). *)
Theorem vocabulary_hits_substring (t a b : text) :
  a ∈ dnd_terms → piece_of a b → contains (lower t) b = true →
  a ∈ vocabulary_hits t.
Proof.
  intros Ha Hpiece Hb. unfold vocabulary_hits.
  apply list_elem_of_In, filter_In. split; [by apply list_elem_of_In|].
  by eapply contains_piece_of.
Qed.

Lemma vocabulary_hits_substring_witness :
  T "advantage" ∈ vocabulary_hits (T "The goblin attacks with Disadvantage").
Proof.
  apply (vocabulary_hits_substring _ (T "advantage") (T "disadvantage")).
  - apply list_elem_of_In. simpl. by left.
  - by exists (T "dis"), [].
  - reflexivity.
Defined.

(** ** The results of the resolver *)

Lemma guard_Some_iff (o : option text) (x : text) :
  (if truthy o then o else None) = Some x ↔ o = Some x ∧ x ≠ [].
Proof.
  destruct o as [[|c t]|]; simpl; split; try done.
  - by intros [[= <-] ?].
  - by intros [= <-].
  - by intros [? ?].
  - by intros [? ?].
Qed.

(** X9. A populated [coreRule] or [houseRule] field of [query_rule] holds
    a non-empty excerpt returned by the search of its corpus, and
    [sources] names exactly the populated fields, the core rules first. *)
Theorem query_rule_fields (self : RulesArbiter) (rule_name context : text) :
  let r := query_rule self rule_name context in
  (∀ c, qr_coreRule r = Some c
        ↔ _search_in_text rule_name (core_text self) = Some c ∧ c ≠ [])
  ∧ (∀ h, qr_houseRule r = Some h
          ↔ _search_in_text rule_name (house_rules self) = Some h ∧ h ≠ [])
  ∧ qr_sources r
    = match qr_coreRule r with Some _ => [T "Core Rules"] | None => [] end
      ++ match qr_houseRule r with
         | Some _ => [campaign_name self ++ T " House Rules"]
         | None => []
         end.
Proof.
  unfold query_rule; simpl.
  split; [intros c; apply guard_Some_iff|].
  split; [intros h; apply guard_Some_iff|].
  destruct (_search_in_text rule_name (core_text self)) as [[|a c]|];
    destruct (_search_in_text rule_name (house_rules self)) as [[|b h]|];
    reflexivity.
Qed.

(** X10. [compare_rules] and [query_rule] agree on a rule name:
    [coreDefined] and [campaignOverride] tell which fields [query_rule]
    populates, a difference carries the two excerpts of those fields, and
    the campaign rule is recommended exactly when [query_rule] recommends
    the campaign-specific rule. *)
Theorem compare_rules_agrees_with_query_rule
  (self : RulesArbiter) (rule_name context : text) :
  let c := compare_rules self rule_name in
  let q := query_rule self rule_name context in
  (coreDefined c = true ↔ is_Some (qr_coreRule q))
  ∧ (campaignOverride c = true ↔ is_Some (qr_houseRule q))
  ∧ (∀ d, d ∈ differences c →
          qr_coreRule q = Some (coreRule d)
          ∧ qr_houseRule q = Some (campaignRule d)
          ∧ coreRule d ≠ campaignRule d
          ∧ aspect d = rule_name ∧ useCampaignRule d = true)
  ∧ (cmp_recommendation c = T "Use campaign rule"
     ↔ ∃ h, qr_recommendation q
            = T "Use campaign-specific rule: " ++ take 200 h ++ T "...").
Proof.
  unfold compare_rules, query_rule; simpl. rewrite !truthy_guard.
  set (core := _search_in_text rule_name (core_text self)).
  set (house := _search_in_text rule_name (house_rules self)).
  split; [|split; [|split]].
  - destruct core as [[|a c]|]; simpl; (split; [by eauto|]);
      first [done | by intros [? ?]].
  - destruct house as [[|b h]|]; simpl; (split; [by eauto|]);
      first [done | by intros [? ?]].
  - intros d. destruct (truthy core) eqn:Hc, (truthy house) eqn:Hh; simpl;
      try by intros ?%elem_of_nil.
    case_bool_decide as Heq; simpl; [by intros ?%elem_of_nil|].
    intros ->%list_elem_of_singleton. simpl.
    apply truthy_Some_cons in Hc as (a & c & Hc).
    apply truthy_Some_cons in Hh as (b & h & Hh).
    rewrite Hc, Hh in Heq |- *. simpl. repeat split. congruence.
  - destruct (truthy house) eqn:Hh; simpl.
    + split; [intros _; by eexists|done].
    + split.
      * intros Hx. apply (f_equal (take 6)) in Hx.
        destruct (truthy core); by vm_compute in Hx.
      * intros [h Hx]. apply (f_equal (take 6)) in Hx.
        destruct (truthy core); by vm_compute in Hx.
Qed.

(** ** The related rules of an edge case *)

Lemma related_for_length self kw : length (related_for self kw) ≤ 2.
Proof.
  unfold related_for.
  destruct (truthy (_search_in_text kw (core_text self)));
    destruct (truthy (_search_in_text kw (house_rules self))); simpl; lia.
Qed.

Lemma related_for_elem self kw rule :
  rule ∈ related_for self kw →
  keyword rule = kw
  ∧ ((source rule = T "Core Rules"
      ∧ ∃ e, e ≠ [] ∧ _search_in_text kw (core_text self) = Some e
             ∧ rule_text rule = take 150 e)
     ∨ (source rule = T "House Rules"
        ∧ ∃ e, e ≠ [] ∧ _search_in_text kw (house_rules self) = Some e
               ∧ rule_text rule = take 150 e)).
Proof.
  unfold related_for. intros [Hc|Hh]%elem_of_app.
  - destruct (truthy _) eqn:E in Hc; [|by apply elem_of_nil in Hc].
    apply list_elem_of_singleton in Hc as ->. simpl.
    apply truthy_Some_cons in E as (c & e & ->).
    split; [done|]. left. split; [done|]. by exists (c :: e).
  - destruct (truthy _) eqn:E in Hh; [|by apply elem_of_nil in Hh].
    apply list_elem_of_singleton in Hh as ->. simpl.
    apply truthy_Some_cons in E as (c & e & ->).
    split; [done|]. right. split; [done|]. by exists (c :: e).
Qed.

Lemma concat_map_length {A B} (f : A → list B) (l : list A) n :
  (∀ x, length (f x) ≤ n) → length (concat (map f l)) ≤ n * length l.
Proof.
  intros Hf. induction l as [|x l IH]; simpl; [lia|].
  rewrite length_app. specialize (Hf x). lia.
Qed.

Lemma concat_map_elem {A B} (f : A → list B) (l : list A) y :
  y ∈ concat (map f l) → ∃ x, x ∈ l ∧ y ∈ f x.
Proof.
  induction l as [|x l IH]; simpl; [by intros ?%elem_of_nil|].
  intros [Hy|Hy]%elem_of_app.
  - exists x. split; [by left|done].
  - destruct (IH Hy) as (x' & ? & ?). exists x'. split; [by right|done].
Qed.

Lemma resolve_edge_case_related self sit :
  relatedRules (resolve_edge_case self sit)
  = concat (map (related_for self) (_extract_keywords sit)).
Proof.
  unfold resolve_edge_case; simpl.
  by rewrite (fold_left_app_concat (related_for self)).
Qed.

Lemma extract_keywords_length t : length (_extract_keywords t) ≤ 5.
Proof. unfold _extract_keywords. rewrite length_take. lia. Qed.

(** X11. [resolve_edge_case] returns at most 10 related rules; each one
    belongs to a keyword of the situation, is labelled Core Rules or House
    Rules, and its text is the first 150 characters of a non-empty excerpt
    found for that keyword in the corpus of its label. *)
Theorem resolve_edge_case_related_bounds (self : RulesArbiter) (sit : text) :
  let r := resolve_edge_case self sit in
  length (relatedRules r) ≤ 10
  ∧ ∀ rule, rule ∈ relatedRules r →
      keyword rule ∈ _extract_keywords sit
      ∧ rule_text rule ≠ [] ∧ length (rule_text rule) ≤ 150
      ∧ ((source rule = T "Core Rules"
          ∧ ∃ e, _search_in_text (keyword rule) (core_text self) = Some e
                 ∧ rule_text rule = take 150 e)
         ∨ (source rule = T "House Rules"
            ∧ ∃ e, _search_in_text (keyword rule) (house_rules self) = Some e
                   ∧ rule_text rule = take 150 e)).
Proof.
  cbv zeta. rewrite resolve_edge_case_related. split.
  - pose proof (concat_map_length (related_for self)
                  (_extract_keywords sit) 2 (related_for_length self)).
    pose proof (extract_keywords_length sit). lia.
  - intros rule (kw & Hkw & Hrule)%concat_map_elem.
    apply related_for_elem in Hrule as [<- Hsrc].
    split; [done|].
    assert (∀ e : text, e ≠ [] → take 150 e ≠ [] ∧ length (take 150 e) ≤ 150)
      as Htake.
    { intros [|c e] He; [done|]. split; [done|]. rewrite length_take. lia. }
    destruct Hsrc as [(Hs & e & He & Hsearch & Ht)|(Hs & e & He & Hsearch & Ht)];
      rewrite Ht; destruct (Htake e He) as [? ?];
      (split; [done|]); (split; [done|]); [left|right]; eauto.
Qed.

(** ** What the loader stores *)

Lemma fold_left_invariant {A B} (P : B → Prop) (f : B → A → B)
  (l : list A) (b : B) :
  P b → (∀ b a, a ∈ l → P b → P (f b a)) → P (fold_left f l b).
Proof.
  revert b. induction l as [|a l IH]; simpl; intros b Hb Hstep; [done|].
  apply IH.
  - apply Hstep; [left|done].
  - intros b' a' Ha'. apply Hstep. by right.
Qed.

Lemma file_dict_content fs file_path f :
  file_dict fs file_path = Some f → content f ≠ [].
Proof.
  unfold file_dict.
  destruct (_read_file fs file_path) as [[|c t]|]; [done| |done].
  by intros [= <-].
Qed.

Lemma legacy_entry_content fs relative_path f :
  legacy_entry fs relative_path = Some (File f) → content f ≠ [].
Proof.
  unfold legacy_entry. destruct (is_file fs [relative_path]).
  - destruct (file_dict fs [relative_path]) eqn:E; simpl; [|done].
    intros [= <-]. by eapply file_dict_content.
  - by destruct (is_dir fs [relative_path]).
Qed.

Lemma load_legacy_campaign_Some fs campaign_config cd :
  _load_legacy_campaign fs campaign_config = inr cd →
  ∃ name paths,
    cfg_name campaign_config = Some name
    ∧ cfg_paths campaign_config = Some paths
    ∧ cd = {| cd_name := Some name;
              cd_files := Some (omap (legacy_entry fs) paths) |}
    ∧ files_nonempty (omap (legacy_entry fs) paths).
Proof.
  unfold _load_legacy_campaign.
  destruct (cfg_name campaign_config) as [name|]; [|done].
  destruct (cfg_paths campaign_config) as [paths|]; [|done].
  intros [= <-]. exists name, paths. repeat split.
  intros key f (relative_path & Hf & _)%lookup_omap_Some.
  by eapply legacy_entry_content.
Qed.

(** The loop over the directories of a standard campaign stores dicts of
    directories under its own keys and leaves the other keys alone. *)
Lemma standard_directories_fold fs campaign_path files :
  let files' :=
    fold_left
      (fun files '(key, dirname) =>
         let dir_path := campaign_path ++ [dirname] in
         if path_exists fs dir_path then
           let dir_files := directory_files fs dir_path in
           if bool_decide (dir_files = ∅) then files
           else <[key := Directory dir_files]> files
         else files)
      directories files in
  (files_nonempty files → files_nonempty files')
  ∧ files' !! "rules"%string = files !! "rules"%string
  ∧ files' !! "houseRules"%string = files !! "houseRules"%string.
Proof.
  cbv zeta.
  apply (fold_left_invariant
           (λ files', (files_nonempty files → files_nonempty files')
                      ∧ files' !! "rules"%string = files !! "rules"%string
                      ∧ files' !! "houseRules"%string
                        = files !! "houseRules"%string)); [done|].
  intros files' [key dirname] Hin (Hne & Hr & Hh).
  destruct (path_exists fs (campaign_path ++ [dirname])); [|done].
  cbv zeta. case_bool_decide; [done|].
  assert (key ≠ "rules"%string ∧ key ≠ "houseRules"%string) as [? ?].
  { unfold directories in Hin. set_unfold in Hin.
    destruct Hin as [Hin|[Hin|[Hin|[Hin|[Hin|[]]]]]]; simplify_eq; done. }
  rewrite !lookup_insert_ne by done. split; [|done].
  intros Hfiles k f. destruct (decide (key = k)) as [->|].
  - by rewrite lookup_insert_eq.
  - rewrite lookup_insert_ne by done. by apply Hne.
Qed.

(** The files of a standard campaign: the key [houseRules] holds the file
    [house-rules.md] of the campaign folder when it exists, can be read
    and is not empty, and nothing otherwise; there is no key [rules]. *)
Lemma load_standard_campaign_Some fs campaign_config cd :
  _load_standard_campaign fs campaign_config = inr cd →
  ∃ name p files,
    cfg_name campaign_config = Some name
    ∧ cfg_path campaign_config = Some p
    ∧ cd = {| cd_name := Some name; cd_files := Some files |}
    ∧ files_nonempty files
    ∧ files !! "rules"%string = None
    ∧ files !! "houseRules"%string
      = File <$> (if path_exists fs [p; T "house-rules.md"]
                  then file_dict fs [p; T "house-rules.md"] else None).
Proof.
  unfold _load_standard_campaign.
  destruct (cfg_path campaign_config) as [p|]; [|done].
  destruct (cfg_name campaign_config) as [name|]; [|done].
  cbv zeta.
  match goal with
  | |- inr {| cd_name := _;
              cd_files := Some (fold_left ?f directories ?files0) |} = _ → _ =>
      set (files := files0);
      pose proof (standard_directories_fold fs [p] files) as Hdirs;
      cbv zeta in Hdirs;
      set (files' := fold_left f directories files) in *
  end.
  destruct Hdirs as (Hne & Hr & Hh). clearbody files'.
  intros [= <-]. exists name, p, files'.
  split; [done|]. split; [done|]. split; [done|].
  rewrite Hr, Hh.
  assert (files_nonempty files
          ∧ files !! "rules"%string = None
          ∧ files !! "houseRules"%string
            = File <$> (if path_exists fs [p; T "house-rules.md"]
                        then file_dict fs [p; T "house-rules.md"] else None))
    as (H1 & H2 & H3); [|by auto].
  clear. subst files. unfold standard_files. cbn [fold_left app].
  repeat match goal with
         | |- context [path_exists fs ?x] =>
             destruct (path_exists fs x); cbv zeta
         end;
    repeat match goal with
           | |- context [file_dict fs ?x] =>
               let E := fresh "E" in
               destruct (file_dict fs x) eqn:E;
               try apply file_dict_content in E
           end;
    (split; [|split; [by simplify_map_eq|by simplify_map_eq]]);
    intros k g Hk;
    repeat match type of Hk with
           | <[?i := _]> _ !! _ = _ =>
               apply lookup_insert_Some in Hk as [[_ Hk]|[_ Hk]];
               [by simplify_eq|]
           end;
    by rewrite lookup_empty in Hk.
Qed.

Lemma load_campaign_Some fs loader cd :
  load_campaign fs loader = inr cd →
  ∃ campaign_config name files,
    campaigns (config loader) !! active_campaign_name loader
    = Some campaign_config
    ∧ cfg_name campaign_config = Some name
    ∧ cd = {| cd_name := Some name; cd_files := Some files |}
    ∧ files_nonempty files.
Proof.
  unfold load_campaign.
  destruct (campaigns (config loader) !! active_campaign_name loader)
    as [campaign_config|]; [|done].
  destruct (cfg_type campaign_config) as [type|]; [|done].
  case_bool_decide.
  - intros (name & paths & ? & ? & ? & ?)%load_legacy_campaign_Some.
    by exists campaign_config, name, (omap (legacy_entry fs) paths).
  - intros (name & p & files & ? & ? & ? & ? & _)%load_standard_campaign_Some.
    by exists campaign_config, name, files.
Qed.


Lemma load_campaign_ext fs loader1 loader2 :
  campaigns (config loader1) = campaigns (config loader2) →
  active_campaign_name loader1 = active_campaign_name loader2 →
  load_campaign fs loader1 = load_campaign fs loader2.
Proof. unfold load_campaign. by intros -> ->. Qed.


Lemma new_RulesArbiter_Some cd core self :
  new_RulesArbiter cd core = inr self →
  _extract_house_rules cd = inr (house_rules self)
  ∧ campaign_name self = default (T "Unknown") (cd_name cd)
  ∧ core_rules self = core ∧ campaign_data self = cd.
Proof.
  unfold new_RulesArbiter.
  destruct (_extract_house_rules cd); [done|]. by intros [= <-].
Qed.



(** ** The house rules of a loaded campaign *)

(** X26. The arbiter takes the content of the file stored under
    [houseRules], without that key the content of the file stored under
    [rules], and with neither key the empty text, on which every search
    misses; its construction raises [KeyError] exactly when the entry so
    selected is the dict of a directory. For campaign data that the loader
    has built, no stored file is empty, so the house-rules text of an
    arbiter is empty only when neither key is present. *)
Theorem extract_house_rules_fallback
  (cd : CampaignData) (core : gmap string text) :
  let files := default ∅ (cd_files cd) in
  (∀ f, files !! "houseRules"%string = Some (File f) →
        ∃ self, new_RulesArbiter cd core = inr self
                ∧ house_rules self = content f)
  ∧ (∀ f, files !! "houseRules"%string = None →
          files !! "rules"%string = Some (File f) →
          ∃ self, new_RulesArbiter cd core = inr self
                  ∧ house_rules self = content f)
  ∧ (files !! "houseRules"%string = None →
     files !! "rules"%string = None →
     ∃ self, new_RulesArbiter cd core = inr self
             ∧ house_rules self = []
             ∧ ∀ term, _search_in_text term (house_rules self) = None)
  ∧ (new_RulesArbiter cd core = inl KeyError ↔
       ∃ dir_files,
         files !! "houseRules"%string = Some (Directory dir_files)
         ∨ (files !! "houseRules"%string = None
            ∧ files !! "rules"%string = Some (Directory dir_files)))
  ∧ (∀ fs loader self,
       load_campaign fs loader = inr cd →
       new_RulesArbiter cd core = inr self →
       (house_rules self = [] ↔
          files !! "houseRules"%string = None
          ∧ files !! "rules"%string = None)).
Proof.
  cbv zeta. split; [|split; [|split; [|split]]].
  - intros f Hh. unfold new_RulesArbiter, _extract_house_rules.
    rewrite Hh. simpl. eauto.
  - intros f Hh Hr. unfold new_RulesArbiter, _extract_house_rules.
    rewrite Hh, Hr. simpl. eauto.
  - intros Hh Hr. unfold new_RulesArbiter, _extract_house_rules.
    rewrite Hh, Hr. simpl. eauto.
  - split.
    + unfold new_RulesArbiter, _extract_house_rules, entry_content.
      destruct (default ∅ (cd_files cd) !! "houseRules"%string)
        as [[f|d]|]; [done|eauto|].
      destruct (default ∅ (cd_files cd) !! "rules"%string)
        as [[f|d]|]; [done|eauto|done].
    + intros [d H]. by eapply new_RulesArbiter_directory.
  - intros fs loader self Hload Hnew.
    apply load_campaign_Some in Hload as (? & name & files & _ & _ & -> & Hne).
    apply new_RulesArbiter_Some in Hnew as (Hhouse & _).
    unfold _extract_house_rules, entry_content in Hhouse. simpl in *.
    destruct (files !! "houseRules"%string) as [[f|d]|] eqn:Eh.
    + apply Hne in Eh. injection Hhouse as <-.
      split; [done|]. by intros [? ?].
    + done.
    + destruct (files !! "rules"%string) as [[f|d]|] eqn:Er.
      * apply Hne in Er. injection Hhouse as <-.
        split; [done|]. by intros [? ?].
      * done.
      * by injection Hhouse as <-.
Qed.

Lemma extract_house_rules_fallback_witness :
  let cd :=
    {| cd_name := Some (T "Fragments");
       cd_files :=
         Some {[ "rules"%string :=
                   File {| path := T "rules.md";
                           content := sample_house_text |} ]} |} in
  ∃ self, new_RulesArbiter cd sample_core_rules = inr self
          ∧ house_rules self = sample_house_text.
Proof.
  intros cd.
  apply (proj1 (proj2 (extract_house_rules_fallback cd sample_core_rules))
           {| path := T "rules.md"; content := sample_house_text |});
    reflexivity.
Defined.

(** ** A campaign without rule files *)

Lemma search_in_empty_text term : _search_in_text term [] = None.
Proof. reflexivity. Qed.

(** X12. For a campaign whose files have neither a [houseRules] nor a
    [rules] key the arbiter is built and works from the core rules alone:
    [check_house_rules] answers with the no-house-rules text and no
    categories whatever category is asked, [query_rule] never populates
    [houseRule], [compare_rules] reports no override and no difference,
    and every related rule of [resolve_edge_case] is a core rule. *)
Theorem campaign_without_rule_files
  (cd : CampaignData) (core : gmap string text) :
  default ∅ (cd_files cd) !! "houseRules"%string = None →
  default ∅ (cd_files cd) !! "rules"%string = None →
  ∃ self,
    new_RulesArbiter cd core = inr self
    ∧ (∀ category,
         check_house_rules self category
         = inr (HouseRulesOverview (default (T "Unknown") (cd_name cd))
                  (T "No campaign-specific house rules defined. Using core rules.")
                  []))
    ∧ (∀ rule_name context,
         qr_houseRule (query_rule self rule_name context) = None)
    ∧ (∀ rule_name,
         campaignOverride (compare_rules self rule_name) = false
         ∧ differences (compare_rules self rule_name) = [])
    ∧ (∀ sit rule, rule ∈ relatedRules (resolve_edge_case self sit) →
                   source rule = T "Core Rules").
Proof.
  intros Hh Hr.
  assert (new_RulesArbiter cd core
          = inr {| campaign_data := cd; core_rules := core;
                   campaign_name := default (T "Unknown") (cd_name cd);
                   house_rules := [] |}) as Hnew
    by (unfold new_RulesArbiter, _extract_house_rules; by rewrite Hh, Hr).
  eexists. split; [exact Hnew|].
  set (self := {| campaign_data := cd; house_rules := [] |}).
  assert (house_rules self = []) as Hempty by done.
  assert (campaign_name self = default (T "Unknown") (cd_name cd)) as Hname
    by done.
  clearbody self.
  split; [|split; [|split]].
  - intros category. unfold check_house_rules. by rewrite Hempty, Hname.
  - intros rule_name context. unfold query_rule; simpl.
    by rewrite Hempty, search_in_empty_text.
  - intros rule_name. unfold compare_rules; simpl.
    rewrite Hempty, search_in_empty_text; simpl.
    by rewrite andb_false_r.
  - intros sit rule. rewrite resolve_edge_case_related.
    intros (kw & _ & Hrule)%concat_map_elem.
    apply related_for_elem in Hrule as [_ [[? _]|(_ & e & _ & He & _)]];
      [done|].
    by rewrite Hempty, search_in_empty_text in He.
Qed.

Lemma campaign_without_rule_files_witness :
  ∃ self,
    new_RulesArbiter bare_campaign sample_core_rules = inr self
    ∧ check_house_rules self (Some (T "Combat"))
      = inr (HouseRulesOverview (T "Fragments")
               (T "No campaign-specific house rules defined. Using core rules.")
               []).
Proof.
  destruct (campaign_without_rule_files bare_campaign sample_core_rules)
    as (self & Hnew & Hcheck & _); [reflexivity..|].
  exists self. split; [exact Hnew|]. apply Hcheck.
Defined.

(** ** Switching to a configured campaign *)

Section Switching.

Variable fs : FileSystem.

(** The tool call for a configured identifier, by the outcome of the
    reload. *)
Lemma switch_configured_call (st : Server) (name : string)
  (campaign_config : CampaignConfig) :
  campaigns (config (campaign_loader st)) !! name = Some campaign_config →
  let config' :=
    {| campaigns := campaigns (config (campaign_loader st));
       activeCampaign := Some name;
       coreRulesPath := coreRulesPath (config (campaign_loader st)) |} in
  let st' campaign arbiter :=
    {| campaign_loader :=
         {| config := config'; active_campaign_name := name |};
       config_file := config';
       current_campaign := campaign;
       server_core_rules := server_core_rules st;
       rules_arbiter := arbiter |} in
  call_tool_switch_campaign fs st name
  = match campaign_for fs st name with
    | inl e => (ToolError e, st' (current_campaign st) (rules_arbiter st))
    | inr campaign =>
        match new_RulesArbiter campaign (server_core_rules st) with
        | inl e => (ToolError e, st' campaign (rules_arbiter st))
        | inr arbiter => (Switched (cd_name campaign), st' campaign arbiter)
        end
    end.
Proof.
  intros Hname. cbv zeta.
  unfold call_tool_switch_campaign, switch_campaign, campaign_for.
  rewrite Hname. cbn [server_core_rules].
  rewrite (load_campaign_ext fs _
             {| config := config (campaign_loader st);
                active_campaign_name := name |}) by done.
  destruct (load_campaign fs _) as [e|campaign]; [done|].
  by destruct (new_RulesArbiter campaign (server_core_rules st)).
Qed.

Lemma switch_unconfigured_call (st : Server) (name : string) :
  campaigns (config (campaign_loader st)) !! name = None →
  call_tool_switch_campaign fs st name = (CampaignNotFound name, st)
  ∧ loaded_for fs st name = None
  ∧ arbiter_for fs st name = None.
Proof.
  intros Hname. split; [|split].
  - unfold call_tool_switch_campaign, switch_campaign. rewrite Hname.
    by destruct st.
  - unfold loaded_for, campaign_for, load_campaign. simpl. by rewrite Hname.
  - unfold arbiter_for, campaign_for, load_campaign. simpl. by rewrite Hname.
Qed.




(** One tool call: what it keeps and what it changes. *)
Lemma switch_step (st : Server) (name : string) :
  let st' := snd (call_tool_switch_campaign fs st name) in
  campaigns (config (campaign_loader st'))
  = campaigns (config (campaign_loader st))
  ∧ server_core_rules st' = server_core_rules st
  ∧ active_campaign_name (campaign_loader st')
    = (if decide (is_Some (campaigns (config (campaign_loader st)) !! name))
       then name else active_campaign_name (campaign_loader st))
  ∧ current_campaign st'
    = default (current_campaign st) (loaded_for fs st name)
  ∧ rules_arbiter st' = default (rules_arbiter st) (arbiter_for fs st name)
  ∧ (server_invariant fs st → server_invariant fs st').
Proof.
  cbv zeta.
  destruct (campaigns (config (campaign_loader st)) !! name)
    as [campaign_config|] eqn:Hname.
  - rewrite (switch_configured_call st name campaign_config Hname).
    unfold arbiter_for, loaded_for.
    destruct (campaign_for fs st name) as [e|campaign] eqn:Hload;
      [|destruct (new_RulesArbiter campaign (server_core_rules st))
          as [e|arbiter] eqn:Hnew];
      simpl; (split; [done|]); (split; [done|]); (split; [done|]);
      (split; [done|]); (split; [done|]);
      intros (_ & _ & _ & [n1 Hn1] & [n2 Hn2]);
      unfold server_invariant; simpl;
      (split; [done|]); (split; [done|]); (split; [by rewrite Hname|]).
    + split; [exists n1|exists n2].
      * by rewrite <- Hn1.
      * by rewrite <- Hn2.
    + split; [exists name|exists n2].
      * by rewrite <- Hload.
      * by rewrite <- Hn2.
    + split; [exists name|exists name].
      * by rewrite <- Hload.
      * unfold arbiter_for.
        replace (campaign_for fs _ name) with (campaign_for fs st name)
          by done.
        rewrite Hload. simpl. by rewrite Hnew.
  - destruct (switch_unconfigured_call st name Hname) as (-> & -> & ->).
    simpl. by repeat (split; [done|]).
Qed.


End Switching.


(** A switch that fails leaves the server between two campaigns: the
    loader and the file name the new one, the arbiter answers from the
    old one. *)
Lemma switch_to_directory_rules :
  let st' := snd (call_tool_switch_campaign sample_fs sample_server "tomb") in
  fst (call_tool_switch_campaign sample_fs sample_server "tomb")
  = ToolError KeyError
  ∧ active_campaign_name (campaign_loader st') = "tomb"%string
  ∧ activeCampaign (config_file st') = Some "tomb"%string
  ∧ cd_name (current_campaign st') = Some (T "Tomb of Annihilation")
  ∧ rules_arbiter st' = sample_arbiter.
Proof. repeat split; vm_compute; reflexivity. Qed.

(** ** The start of the server *)

Lemma initialize_server_sample :
  initialize_server sample_fs sample_config = inr sample_server.
Proof. vm_compute. reflexivity. Qed.


(** ** What the server keeps true *)




(** ** The check_house_rules tool *)

(** X16. The [check_house_rules] branch of [call_tool] fails in exactly
    one case: when the active campaign has no house rules and a non-empty
    category is asked for, the dict returned has no [rules] key and the
    call is answered by the error text for that key; in every other case
    the call renders a text. *)
Theorem call_tool_check_house_rules_outcome
  (st : Server) (arguments : gmap string text) :
  let category := arguments !! "category"%string in
  if bool_decide (house_rules (rules_arbiter st) = []) && truthy category
  then call_tool_check_house_rules st arguments
       = ToolFailed (MissingKey "rules")
  else ∃ output, call_tool_check_house_rules st arguments = ToolText output.
Proof.
  cbv zeta. unfold call_tool_check_house_rules, check_house_rules.
  destruct (house_rules (rules_arbiter st)) as [|c rules] eqn:Hrules.
  - rewrite bool_decide_eq_true_2 by done. simpl.
    destruct (truthy (arguments !! "category"%string)); simpl; eauto.
  - rewrite bool_decide_eq_false_2 by done. cbn [andb].
    destruct (truthy (arguments !! "category"%string)) eqn:Hcat.
    + destruct (extract_section_returns (c :: rules)
                  (excerpt (arguments !! "category"%string))) as [section ->].
      simpl. eauto.
    + simpl. eauto.
Qed.

Lemma call_tool_check_house_rules_example :
  let st :=
    {| campaign_loader := campaign_loader sample_server;
       config_file := sample_config;
       current_campaign := bare_campaign;
       server_core_rules := sample_core_rules;
       rules_arbiter := bare_arbiter |} in
  new_RulesArbiter bare_campaign sample_core_rules = inr bare_arbiter
  ∧
  call_tool_check_house_rules st {[ "category"%string := T "Combat" ]}
  = ToolFailed (MissingKey "rules")
  ∧ call_tool_check_house_rules st ∅
    = ToolText (T "# House Rules: Fragments" ++ newline ++ newline
                ++ T "No campaign-specific house rules defined. Using core rules.").
Proof. repeat split; reflexivity. Qed.

(** ** Campaign information *)

(** X17. After the switch to a configured campaign, whether or not its
    reload succeeds, [get_campaign_info] raises [ValueError] for an
    identifier that is not configured and [KeyError] for a configured
    campaign whose entry lacks the key [name] or [type]; it reports every
    other configured campaign with its display name, description and
    type, flags it as active exactly when it is the campaign switched to,
    and without an identifier reports that campaign. *)
Theorem get_campaign_info_after_switch
  (fs : FileSystem) (st : Server) (switched other : string) :
  is_Some (campaigns (config (campaign_loader st)) !! switched) →
  other ≠ ""%string →
  let loader' :=
    campaign_loader (snd (call_tool_switch_campaign fs st switched)) in
  match campaigns (config (campaign_loader st)) !! other with
  | None => get_campaign_info loader' (Some other) = inl ValueError
  | Some campaign_config =>
      match cfg_name campaign_config, cfg_type campaign_config with
      | Some displayName, Some type =>
          get_campaign_info loader' (Some other)
          = inr {| info_name := other;
                   info_displayName := displayName;
                   info_description :=
                     default [] (cfg_description campaign_config);
                   info_type := type;
                   info_active := bool_decide (other = switched) |}
      | _, _ => get_campaign_info loader' (Some other) = inl KeyError
      end
  end
  ∧ get_campaign_info loader' None
    = get_campaign_info loader' (Some switched).
Proof.
  intros [campaign_config Hsw] Hother. cbv zeta.
  destruct (switch_step fs st switched) as (Hcamp & _ & Hactive & _).
  rewrite Hsw in Hactive.
  rewrite decide_True in Hactive by done.
  unfold get_campaign_info. rewrite Hcamp, Hactive. split.
  - destruct other as [|a other]; [done|]. simpl.
    destruct (campaigns (config (campaign_loader st)) !! String a other)
      as [cc|]; [|done].
    by destruct (cfg_name cc), (cfg_type cc).
  - by destruct switched.
Qed.

Lemma get_campaign_info_after_switch_witness :
  get_campaign_info
    (campaign_loader
       (snd (call_tool_switch_campaign sample_fs sample_server "tomb")))
    (Some "strahd"%string)
  = inr {| info_name := "strahd";
           info_displayName := T "Curse of Strahd";
           info_description := T "Gothic horror";
           info_type := T "standard";
           info_active := false |}.
Proof.
  apply (get_campaign_info_after_switch sample_fs sample_server
           "tomb" "strahd"); [by eexists|done].
Defined.

(** ** When the excerpt keeps the match *)

Lemma is_space_lower_char c : is_space (lower_char c) = is_space c.
Proof. destruct c as [[] [] [] [] [] [] [] []]; reflexivity. Qed.

Lemma lower_take n t : lower (take n t) = take n (lower t).
Proof. unfold lower. symmetry. apply firstn_map. Qed.

Lemma lower_drop n t : lower (drop n t) = drop n (lower t).
Proof. unfold lower. symmetry. apply skipn_map. Qed.

Lemma lower_lookup t i c :
  lower t !! i = Some c → ∃ a, t !! i = Some a ∧ lower_char a = c.
Proof.
  revert i; induction t as [|a t IH]; intros [|i]; simpl; try done.
  - intros [= <-]. eauto.
  - apply IH.
Qed.

Lemma starts_with_lookup p t i c :
  starts_with p t = true → p !! i = Some c → t !! i = Some c.
Proof.
  revert t i; induction p as [|a p IH]; intros [|b t] [|i]; simpl; try done.
  - intros [Hab _]%andb_prop [= <-]. by apply bool_decide_eq_true in Hab as ->.
  - intros [_ Hp]%andb_prop. by apply IH.
Qed.

Lemma starts_with_take p t m :
  starts_with p t = true → length p ≤ m → starts_with p (take m t) = true.
Proof.
  revert t m; induction p as [|a p IH]; intros [|b t] [|m]; simpl;
    try done; try lia.
  intros [Hab Hp]%andb_prop Hm. rewrite Hab. simpl. apply IH; [done|lia].
Qed.

Lemma occurs_at_drop sub (t : text) a k :
  occurs_at sub t k → a ≤ k → occurs_at sub (drop a t) (k - a).
Proof.
  intros [Hk Hs] Ha. split.
  - rewrite length_drop. lia.
  - rewrite drop_drop. by replace (a + (k - a)) with k by lia.
Qed.

Lemma occurs_at_take sub (t : text) b k :
  occurs_at sub t k → k + length sub ≤ b → occurs_at sub (take b t) k.
Proof.
  intros [Hk Hs] Hb. split.
  - rewrite length_take. lia.
  - replace b with (k + (b - k)) by lia.
    rewrite <- take_drop_commute. apply starts_with_take; [done|lia].
Qed.

Lemma lstrip_drop (u : text) k c :
  u !! k = Some c → is_space c = false → ∃ j, j ≤ k ∧ lstrip u = drop j u.
Proof.
  intros Hk Hc. destruct (lstrip_split u) as (sp & Hu & Hsp).
  exists (length sp). split.
  - destruct (decide (length sp ≤ k)) as [|Hlt]; [done|].
    rewrite Hu, lookup_app_l in Hk by lia.
    rewrite Forall_lookup in Hsp. apply Hsp in Hk. congruence.
  - rewrite Hu at 2. by rewrite drop_app_length.
Qed.

Lemma rstrip_take (u : text) k c :
  u !! k = Some c → is_space c = false → ∃ m, k < m ∧ rstrip u = take m u.
Proof.
  intros Hk Hc. destruct (rstrip_split u) as (sp & Hu & Hsp).
  exists (length (rstrip u)). split.
  - destruct (decide (k < length (rstrip u))) as [|Hge]; [done|].
    rewrite Hu, lookup_app_r in Hk by lia.
    rewrite Forall_lookup in Hsp. apply Hsp in Hk. congruence.
  - transitivity (take (length (rstrip u)) (rstrip u ++ sp));
      [by rewrite take_app_length|by rewrite <- Hu].
Qed.

Lemma occurs_at_char term (u : text) k i a :
  occurs_at (lower term) (lower u) k → term !! i = Some a →
  ∃ c, u !! (k + i) = Some c ∧ is_space c = is_space a.
Proof.
  intros [_ Hs] Ha.
  assert (lower term !! i = Some (lower_char a)) as Hl.
  { clear Hs. revert i Ha. induction term as [|b term IH]; intros [|i];
      simpl; try done; [by intros [= ->]|apply IH]. }
  eapply starts_with_lookup in Hl; [|done].
  rewrite lookup_drop in Hl.
  apply lower_lookup in Hl as (c & Hc & Hlow). exists c. split; [done|].
  by rewrite <- (is_space_lower_char c), Hlow, is_space_lower_char.
Qed.

(** Stripping keeps a match of a term that has no whitespace at its ends. *)
Lemma strip_keeps_match term (u : text) k :
  term ≠ [] → trimmed term →
  occurs_at (lower term) (lower u) k →
  ∃ k', occurs_at (lower term) (lower (strip u)) k'.
Proof.
  intros Hne [Hhead Hlast] Hocc.
  destruct term as [|a term]; [done|]. clear Hne.
  set (tm := a :: term) in *.
  assert (length (lower tm) = S (length term)) as Hlen
    by (by rewrite lower_length).
  (* the left end *)
  destruct (occurs_at_char tm u k 0 a Hocc eq_refl) as (c & Hc & Hsp).
  rewrite Nat.add_0_r in Hc. rewrite (Hhead a eq_refl) in Hsp.
  destruct (lstrip_drop u k c Hc Hsp) as (j & Hj & Hl).
  apply (occurs_at_drop _ _ j) in Hocc; [|done].
  rewrite <- lower_drop, <- Hl in Hocc.
  (* the right end *)
  assert (∃ z, last tm = Some z ∧ tm !! length term = Some z)
    as (z & Hz & Hzl).
  { rewrite last_lookup. simpl. destruct (tm !! length term) eqn:E; [eauto|].
    apply lookup_ge_None in E. simpl in E. lia. }
  destruct (occurs_at_char tm (lstrip u) (k - j) (length term) z Hocc Hzl)
    as (c' & Hc' & Hsp').
  rewrite (Hlast z Hz) in Hsp'.
  destruct (rstrip_take (lstrip u) _ c' Hc' Hsp') as (m & Hm & Hr).
  exists (k - j). unfold strip. rewrite Hr, lower_take.
  apply occurs_at_take; [done|]. rewrite Hlen. lia.
Qed.

(** X18. The excerpt keeps the match when it is safe from the trims: for
    a non-empty term without whitespace at its ends whose first occurrence
    starts at least 101 characters into the text and ends at least 98
    characters before its end, the search returns an excerpt that contains
    the term without regard to case. *)
Theorem search_in_text_keeps_match (term t : text) (mstart mend : nat) :
  search_escaped_ci term t = Some (mstart, mend) →
  term ≠ [] → trimmed term →
  101 ≤ mstart → mend + 98 ≤ length t →
  ∃ e, _search_in_text term t = Some e
       ∧ contains (lower e) (lower term) = true.
Proof.
  intros Hsearch Hne Htrim Hstart Hend.
  unfold _search_in_text. rewrite Hsearch.
  assert (t ≠ []) as Ht by (intros ->; simpl in Hend; lia).
  rewrite !bool_decide_eq_false_2 by done. cbn [orb]. cbv iota zeta.
  (* the match in the text and in the raw window *)
  unfold search_escaped_ci in Hsearch.
  destruct (find_from (lower term) (lower t) 0) as [i|] eqn:F; [|done].
  injection Hsearch as -> <-.
  apply find_from_Some in F as (_ & Hocc & _). rewrite Nat.sub_0_r in Hocc.
  set (n := length term) in *.
  assert (length (lower term) = n) as Hn by apply lower_length.
  fold (raw_window t mstart (mstart + n)).
  set (w := raw_window t mstart (mstart + n)).
  set (fp := find w (T ". ")).
  set (w1 := if (0 <? fp)%Z && (fp <? 100)%Z
             then slice_from w (fp + 2) else w).
  set (lp := rfind w1 (T ". ")).
  set (w2 := if (len w1 - 100 <? lp)%Z then slice_to w1 (lp + 1) else w1).
  exists (strip w2). split; [done|].
  set (a := mstart - 300).
  assert (w = take (Nat.min (mstart + n + 300) (length t) - a) (drop a t))
    as Hw.
  { unfold w, raw_window, slice, norm_index, len.
    destruct (Z.ltb_spec (Z.max 0 (Z.of_nat mstart - 300)) 0); [lia|].
    destruct (Z.ltb_spec
                (Z.min (Z.of_nat (length t)) (Z.of_nat (mstart + n) + 300)) 0);
      [lia|].
    f_equal; [|f_equal]; unfold a; lia. }
  assert (length w = Nat.min (mstart + n + 300) (length t) - a) as Hlw.
  { rewrite Hw, length_take, length_drop. unfold a. lia. }
  assert (occurs_at (lower term) (lower w) (mstart - a)) as Hocc_w.
  { rewrite Hw, lower_take, lower_drop.
    apply occurs_at_take; [apply occurs_at_drop; [done|unfold a; lia]|].
    rewrite Hn. unfold a. lia. }
  (* the first trim drops at most 101 characters *)
  assert (∃ c, c ≤ 101 ∧ w1 = drop c w) as (c & Hc & Hw1).
  { unfold w1. destruct ((0 <? fp)%Z && (fp <? 100)%Z) eqn:E.
    - apply andb_prop in E as [H0 H100]. apply Z.ltb_lt in H0, H100.
      exists (Z.to_nat fp + 2). split; [lia|].
      replace (fp + 2)%Z with (Z.of_nat (Z.to_nat fp + 2)) by lia.
      apply slice_from_nat.
    - exists 0. split; [lia|done]. }
  assert (length w1 = length w - c) as Hlw1 by (by rewrite Hw1, length_drop).
  assert (occurs_at (lower term) (lower w1) (mstart - a - c)) as Hocc_w1.
  { rewrite Hw1, lower_drop. apply occurs_at_drop; [done|unfold a; lia]. }
  (* the second trim cuts at most 98 characters *)
  assert (occurs_at (lower term) (lower w2) (mstart - a - c)) as Hocc_w2.
  { unfold w2. destruct (Z.ltb_spec (len w1 - 100) lp) as [Hlp|_]; [|done].
    unfold len in Hlp.
    replace (lp + 1)%Z with (Z.of_nat (Z.to_nat (lp + 1)))
      by (unfold a in *; lia).
    rewrite slice_to_nat, lower_take.
    apply occurs_at_take; [done|]. rewrite Hn. unfold a in *. lia. }
  apply contains_occurs_at. by eapply strip_keeps_match.
Qed.

Lemma search_in_text_keeps_match_witness :
  ∃ e, _search_in_text (T "advantage") sample_long_text = Some e
       ∧ contains (lower e) (lower (T "advantage")) = true.
Proof.
  apply (search_in_text_keeps_match (T "advantage") sample_long_text 121 130).
  - reflexivity.
  - discriminate.
  - split; intros c [= <-]; reflexivity.
  - lia.
  - vm_compute. lia.
Defined.

(** ** The dice expression *)

Lemma span_len_app_Forall P (l r : text) :
  Forall (λ c, P c = true) l → span_len P (l ++ r) = length l + span_len P r.
Proof.
  induction 1 as [|c l Hc _ IH]; simpl; [done|]. by rewrite Hc, IH.
Qed.

Lemma span_len_drop P (t : text) :
  span_len P (drop (span_len P t) t) = 0.
Proof.
  induction t as [|c t IH]; simpl; [done|].
  destruct (P c) eqn:E; simpl; [done|by rewrite E].
Qed.

Lemma is_digit_d : is_digit "d"%char = false.
Proof. reflexivity. Qed.

(** Giving digits back never helps the first group: the character behind
    fewer digits is a digit, not the [d]. *)
Lemma count_then_d_Some t k g1 g2 g3 :
  k ≤ span_len is_digit t →
  count_then_d t k = Some (g1, g2, g3) →
  1 ≤ span_len is_digit t
  ∧ g1 = take (span_len is_digit t) t
  ∧ ∃ r, drop (span_len is_digit t) t = "d"%char :: r
         ∧ match_size r = Some (g2, g3).
Proof.
  induction k as [|k IH]; simpl; [done|]. intros Hk.
  assert (Hback : count_then_d t k = Some (g1, g2, g3) →
            1 ≤ span_len is_digit t ∧ g1 = take (span_len is_digit t) t
            ∧ ∃ r, drop (span_len is_digit t) t = "d"%char :: r
                   ∧ match_size r = Some (g2, g3))
    by (apply IH; lia).
  pose proof (drop_head_lookup t (S k)) as Hd.
  destruct (drop (S k) t) as [|c r] eqn:Ed; [done|].
  case_bool_decide as Hc; [subst c|done].
  assert (S k = span_len is_digit t) as Hspan.
  { destruct (decide (S k = span_len is_digit t)) as [|Hne]; [done|].
    destruct (span_len_lookup is_digit t (S k)) as (c & Hc & Hdig); [lia|].
    rewrite Hd in Hc. injection Hc as <-. by rewrite is_digit_d in Hdig. }
  destruct (match_size r) as [[size modifier]|] eqn:Hm; [|done].
  intros [= <- <- <-]. rewrite <- Hspan, Ed. split; [lia|]. eauto.
Qed.

Lemma count_then_d_at_span t r x :
  1 ≤ span_len is_digit t →
  drop (span_len is_digit t) t = "d"%char :: r →
  match_size r = Some x →
  count_then_d t (span_len is_digit t)
  = Some (take (span_len is_digit t) t, x.1, x.2).
Proof.
  intros H1 Hd Hm. destruct (span_len is_digit t) as [|k]; [lia|].
  simpl. rewrite Hd. rewrite bool_decide_eq_true_2 by done.
  rewrite Hm. by destruct x.
Qed.

Lemma match_size_Some_iff t g2 g3 :
  match_size t = Some (g2, g3)
  ↔ 1 ≤ span_len is_digit t ∧ g2 = take (span_len is_digit t) t
    ∧ g3 = match_modifier (drop (span_len is_digit t) t).
Proof.
  unfold match_size.
  destruct (Nat.ltb_spec 0 (span_len is_digit t)); split.
  - by intros [= <- <-].
  - by intros (_ & -> & ->).
  - done.
  - intros (? & _). lia.
Qed.

(** X19. The dice pattern matches exactly the expressions that start with
    one or more digits, a lower-case d and one or more digits; whatever
    follows is not looked at, and every other expression is answered as
    invalid, whatever the flags and the random values. *)
Theorem roll_dice_invalid_iff
  (max_str_digits : nat) (rng : nat → nat)
  (dice_expr : text) (advantage disadvantage : bool) :
  roll_dice max_str_digits rng dice_expr advantage disadvantage = InvalidDice
  ↔ ¬ ∃ count size rest,
        dice_expr = count ++ "d"%char :: size ++ rest
        ∧ count ≠ [] ∧ size ≠ []
        ∧ Forall (λ c, is_digit c = true) count
        ∧ Forall (λ c, is_digit c = true) size.
Proof.
  assert (roll_dice max_str_digits rng dice_expr advantage disadvantage
          = InvalidDice ↔ match_dice dice_expr = None) as ->.
  { unfold roll_dice, parse_dice.
    destruct (match_dice dice_expr) as [[[g1 g2] g3]|]; [|done].
    split; [|done].
    destruct (int_of_text _ g1) as [|n]; [done|].
    destruct (int_of_text _ g2) as [|m]; [done|].
    set (md := match g3 with
               | Some g => _
               | None => inr (n, m, 0%Z)
               end).
    destruct md as [|[[? ?] ?]]; [done|].
    destruct (advantage || disadvantage), advantage;
      repeat (destruct (roll _ _ _ _ _) as [|?]; try done). }
  unfold match_dice. split.
  - intros Hnone (count & size & rest & -> & Hc & Hs & Hcd & Hsd).
    assert (span_len is_digit (count ++ "d"%char :: size ++ rest)
            = length count) as Hspan.
    { rewrite span_len_app_Forall by done. simpl. lia. }
    rewrite Hspan in Hnone.
    assert (1 ≤ span_len is_digit (size ++ rest)).
    { rewrite span_len_app_Forall by done. destruct size; [done|simpl; lia]. }
    rewrite <- Hspan in Hnone.
    erewrite count_then_d_at_span in Hnone; [done| | |].
    + rewrite Hspan. destruct count; [done|simpl; lia].
    + rewrite Hspan. by rewrite drop_app_length.
    + apply match_size_Some_iff. done.
  - intros Hno.
    destruct (count_then_d dice_expr (span_len is_digit dice_expr))
      as [[[g1 g2] g3]|] eqn:E; [|done].
    apply count_then_d_Some in E as (H1 & -> & r & Hd & Hm); [|done].
    apply match_size_Some_iff in Hm as (H2 & -> & _).
    destruct Hno.
    exists (take (span_len is_digit dice_expr) dice_expr),
      (take (span_len is_digit r) r), (drop (span_len is_digit r) r).
    rewrite take_drop, <- Hd, take_drop.
    repeat split; try apply span_len_take_Forall.
    + intros Hnil%(f_equal length).
      rewrite span_len_take_length in Hnil. simpl in Hnil. lia.
    + intros Hnil%(f_equal length).
      rewrite span_len_take_length in Hnil. simpl in Hnil. lia.
Qed.

(** ** Decimal numbers *)

Lemma int_of_digits_acc d acc :
  fold_left (λ acc c, 10 * acc + digit_value c) (text_of_uint d) acc
  = Nat.of_uint_acc d acc.
Proof.
  revert acc; induction d as [|d IH|d IH|d IH|d IH|d IH|d IH|d IH|d IH|d IH|d IH];
    intros acc; simpl; [done|..];
    rewrite IH; f_equal; rewrite Nat.tail_mul_spec;
    unfold digit_value; simpl; lia.
Qed.

Lemma int_of_digits_decimal n : int_of_digits (decimal n) = n.
Proof.
  unfold int_of_digits, decimal. rewrite int_of_digits_acc.
  apply DecimalNat.Unsigned.of_to.
Qed.

Lemma text_of_uint_digits d : Forall (λ c, is_digit c = true) (text_of_uint d).
Proof. induction d; simpl; by constructor. Qed.

Lemma decimal_digits n : Forall (λ c, is_digit c = true) (decimal n).
Proof. apply text_of_uint_digits. Qed.

Lemma decimal_nonempty n : 1 ≤ length (decimal n).
Proof.
  unfold decimal.
  assert (Nat.to_uint n ≠ Decimal.Nil) as Hne.
  { rewrite <- (DecimalNat.Unsigned.of_to n) at 1.
    rewrite DecimalNat.Unsigned.to_of. apply DecimalFacts.unorm_nonnil. }
  destruct (Nat.to_uint n); simpl; first [done | lia].
Qed.

Lemma span_len_head_false P (r : text) :
  (∀ c, head r = Some c → P c = false) → span_len P r = 0.
Proof. destruct r as [|c r]; simpl; [done|]. intros H. by rewrite (H c). Qed.

Lemma span_len_decimal n (rest : text) :
  (∀ c, head rest = Some c → is_digit c = false) →
  span_len is_digit (decimal n ++ rest) = length (decimal n).
Proof.
  intros Hrest. rewrite span_len_app_Forall by apply decimal_digits.
  rewrite span_len_head_false by done. lia.
Qed.

Lemma int_of_text_decimal max_str_digits n :
  fits max_str_digits n → int_of_text max_str_digits (decimal n) = inr n.
Proof.
  intros Hfit. unfold int_of_text. rewrite int_of_digits_decimal.
  destruct Hfit as [->|Hlen]; [done|].
  destruct (Nat.ltb_spec max_str_digits (length (decimal n))); [lia|].
  by rewrite andb_false_r.
Qed.

(** The groups of an expression written from numbers. *)
Lemma match_dice_decimal n m (rest : text) :
  (∀ c, head rest = Some c → is_digit c = false) →
  match_dice (decimal n ++ "d"%char :: decimal m ++ rest)
  = Some (decimal n, decimal m, match_modifier rest).
Proof.
  intros Hrest. unfold match_dice.
  pose proof (decimal_nonempty n). pose proof (decimal_nonempty m).
  assert (span_len is_digit (decimal n ++ "d"%char :: decimal m ++ rest)
          = length (decimal n)) as Hspan
    by (by apply span_len_decimal; intros c [= <-]).
  rewrite (count_then_d_at_span _ (decimal m ++ rest)
             (decimal m, match_modifier rest)).
  - by rewrite Hspan, take_app_length.
  - lia.
  - by rewrite Hspan, drop_app_length.
  - apply match_size_Some_iff. rewrite span_len_decimal by done.
    by rewrite take_app_length, drop_app_length.
Qed.

(** X20. A dice expression written from numbers is read back as those
    numbers: the decimal digits of the count, a d and the digits of the
    size give count, size and modifier 0 when the text that follows starts
    with neither a digit nor a sign; with a sign and the digits of a
    number behind them the modifier is that number, negated for a minus
    sign. The numbers must be within the digit limit of [int]. *)
Theorem parse_dice_round_trip (max_str_digits n m k : nat) :
  fits max_str_digits n → fits max_str_digits m → fits max_str_digits k →
  (∀ rest,
     (∀ c, head rest = Some c → is_digit c = false ∧ is_sign c = false) →
     parse_dice max_str_digits (decimal n ++ "d"%char :: decimal m ++ rest)
     = Some (inr (n, m, 0%Z)))
  ∧ (∀ s rest,
       is_sign s = true →
       (∀ c, head rest = Some c → is_digit c = false) →
       parse_dice max_str_digits
         (decimal n ++ "d"%char :: decimal m ++ s :: decimal k ++ rest)
       = Some (inr (n, m,
                    if bool_decide (s = "-"%char) then (- Z.of_nat k)%Z
                    else Z.of_nat k))).
Proof.
  intros Hn Hm Hk. split.
  - intros rest Hrest. unfold parse_dice.
    rewrite match_dice_decimal by (intros c Hc; by apply Hrest).
    rewrite !int_of_text_decimal by done.
    destruct rest as [|c rest]; [done|]. simpl.
    destruct (Hrest c eq_refl) as [_ ->]. done.
  - intros s rest Hs Hrest. unfold parse_dice.
    rewrite match_dice_decimal.
    + rewrite !int_of_text_decimal by done. simpl.
      rewrite Hs, span_len_decimal by done.
      pose proof (decimal_nonempty k).
      destruct (Nat.ltb_spec 0 (length (decimal k))); [|lia]. simpl.
      by rewrite take_app_length, int_of_text_decimal.
    + intros c [= <-]. unfold is_sign in Hs.
      apply orb_true_iff in Hs as [Hs|Hs]; apply bool_decide_eq_true in Hs;
        by subst.
Qed.

Lemma parse_dice_round_trip_witness :
  parse_dice 4300 (T "2d6+3 fire damage") = Some (inr (2, 6, 3%Z)).
Proof.
  assert (∀ n, n < 10 → fits 4300 n) as Hfit.
  { intros n Hn. right. do 10 (destruct n as [|n]; [vm_compute; lia|]). lia. }
  apply (proj2 (parse_dice_round_trip 4300 2 6 3
                  (Hfit 2 ltac:(lia)) (Hfit 6 ltac:(lia)) (Hfit 3 ltac:(lia)))
           "+"%char (T " fire damage")).
  - reflexivity.
  - intros c [= <-]. reflexivity.
Defined.

(** ** The rolls *)

Lemma sum_rolls_bounds (rng : nat → nat) (s n offset : nat) :
  (∀ i, 1 ≤ rng i ≤ s) →
  n ≤ sum_list (map rng (seq offset n)) ≤ n * s
  ∧ Forall (λ x, 1 ≤ x ≤ s) (map rng (seq offset n)).
Proof.
  intros Hrng. revert offset; induction n as [|n IH]; intros offset; simpl.
  - split; [lia|constructor].
  - destruct (IH (S offset)) as [Hsum Hall]. specialize (Hrng offset).
    split; [lia|by constructor].
Qed.

Lemma roll_Some (rng : nat → nat) (n s : nat) (md : Z) (offset : nat) :
  1 ≤ s →
  roll rng n s md offset
  = inr {| dr_rolls := map rng (seq offset n);
           dr_total := (Z.of_nat (sum_list (map rng (seq offset n))) + md)%Z |}.
Proof.
  intros Hs. unfold roll.
  destruct (Nat.eqb_spec s 0); [lia|]. by rewrite andb_false_r.
Qed.

(** X21. For an expression that parses to a count, a size and a modifier,
    and random values between 1 and the size, the tool call always rolls:
    each roll has count values between 1 and the size and a total between
    count + modifier and count * size + modifier; without flags there is
    one roll; with a flag there are two, and the final total is the larger
    one with advantage and the smaller one otherwise; advantage wins when
    both flags are set. *)
Theorem roll_dice_totals
  (max_str_digits : nat) (rng : nat → nat) (dice_expr : text)
  (advantage disadvantage : bool) (n s : nat) (md : Z) :
  parse_dice max_str_digits dice_expr = Some (inr (n, s, md)) →
  (∀ i, 1 ≤ rng i ≤ s) →
  let within (r : DiceRoll) :=
    length (dr_rolls r) = n
    ∧ Forall (λ x, 1 ≤ x ≤ s) (dr_rolls r)
    ∧ (Z.of_nat n + md ≤ dr_total r ≤ Z.of_nat (n * s) + md)%Z in
  match roll_dice max_str_digits rng dice_expr advantage disadvantage with
  | PlainRoll r modifier =>
      advantage = false ∧ disadvantage = false ∧ modifier = md ∧ within r
  | TwoRolls flag roll1 roll2 final =>
      (advantage = true ∨ disadvantage = true) ∧ flag = advantage
      ∧ within roll1 ∧ within roll2
      ∧ (final = roll1 ∨ final = roll2)
      ∧ dr_total final
        = (if advantage then Z.max (dr_total roll1) (dr_total roll2)
           else Z.min (dr_total roll1) (dr_total roll2))
  | InvalidDice | DiceError _ => False
  end.
Proof.
  intros Hparse Hrng within. unfold roll_dice. rewrite Hparse.
  assert (1 ≤ s) as Hs by (specialize (Hrng 0); lia).
  rewrite !roll_Some by done.
  assert (∀ offset,
            within {| dr_rolls := map rng (seq offset n);
                      dr_total :=
                        (Z.of_nat (sum_list (map rng (seq offset n))) + md)%Z |})
    as Hwithin.
  { intros offset. unfold within; simpl.
    destruct (sum_rolls_bounds rng s n offset Hrng) as [Hsum Hall].
    rewrite length_map, length_seq. repeat split; try done; lia. }
  set (roll1 := {| dr_rolls := map rng (seq 0 n) |}).
  set (roll2 := {| dr_rolls := map rng (seq n n) |}).
  pose proof (Hwithin 0) as H1. pose proof (Hwithin n) as H2.
  fold roll1 in H1. fold roll2 in H2. clearbody roll1 roll2.
  destruct advantage, disadvantage; cbn [orb];
    try (destruct (Z.ltb_spec (dr_total roll2) (dr_total roll1)));
    try (destruct (Z.ltb_spec (dr_total roll1) (dr_total roll2)));
    repeat split; auto; try apply H1; try apply H2; lia.
Qed.

Lemma roll_dice_totals_witness :
  match roll_dice 4300 (λ i, 1 + i `mod` 6) (T "3d6+2") true true with
  | TwoRolls flag roll1 roll2 final =>
      flag = true
      ∧ dr_total final = Z.max (dr_total roll1) (dr_total roll2)
      ∧ (5 ≤ dr_total final ≤ 20)%Z
  | _ => False
  end.
Proof.
  assert (∀ i, 1 ≤ 1 + i `mod` 6 ≤ 6) as Hrng
    by (intros i; pose proof (Nat.mod_upper_bound i 6); lia).
  pose proof (roll_dice_totals 4300 (λ i, 1 + i `mod` 6) (T "3d6+2")
                true true 3 6 2%Z eq_refl Hrng) as H.
  remember (roll_dice 4300 (λ i, 1 + i `mod` 6) (T "3d6+2") true true)
    as answer eqn:E.
  vm_compute in E. subst answer. cbv beta iota zeta in H |- *.
  destruct H as (_ & Hflag & (_ & _ & H1) & (_ & _ & H2) & _ & Hfinal).
  split; [done|]. split; [done|]. rewrite Hfinal. lia.
Defined.

(** X22. The edge cases of the rolls: with a count of 0 nothing is rolled
    and every total is the modifier, whatever the size; with a count of at
    least 1 and a size of 0 the random call raises [ValueError] and the
    tool call is answered by the error text. *)
Theorem roll_dice_edges
  (max_str_digits : nat) (rng : nat → nat) (dice_expr : text)
  (advantage disadvantage : bool) (n s : nat) (md : Z) :
  parse_dice max_str_digits dice_expr = Some (inr (n, s, md)) →
  let nothing := {| dr_rolls := []; dr_total := md |} in
  (n = 0 →
   roll_dice max_str_digits rng dice_expr advantage disadvantage
   = if advantage || disadvantage
     then TwoRolls advantage nothing nothing nothing
     else PlainRoll nothing md)
  ∧ (1 ≤ n → s = 0 →
     roll_dice max_str_digits rng dice_expr advantage disadvantage
     = DiceError ValueError).
Proof.
  intros Hparse nothing. unfold roll_dice. rewrite Hparse. split.
  - intros ->. unfold roll. simpl.
    destruct advantage, disadvantage; simpl; try done;
      by rewrite Z.ltb_irrefl.
  - intros Hn ->. unfold roll.
    destruct (Nat.ltb_spec 0 n); [|lia]. simpl.
    by destruct (advantage || disadvantage).
Qed.

Lemma roll_dice_edges_witness :
  roll_dice 4300 (λ _, 1) (T "3d0+2") false false = DiceError ValueError
  ∧ roll_dice 4300 (λ _, 1) (T "0d0+2") false false
    = PlainRoll {| dr_rolls := []; dr_total := 2 |} 2.
Proof.
  split.
  - apply (roll_dice_edges 4300 (λ _, 1) (T "3d0+2") false false 3 0 2%Z);
      [reflexivity|lia|reflexivity].
  - apply (roll_dice_edges 4300 (λ _, 1) (T "0d0+2") false false 0 0 2%Z);
      reflexivity.
Defined.

(** ** The case of a section name *)

Lemma match_heading_name_case name1 name2 t :
  lower name1 = lower name2 → match_heading name1 t = match_heading name2 t.
Proof.
  intros Hl.
  assert (length name1 = length name2) as Hlen
    by (by rewrite <- (lower_length name1), Hl, lower_length).
  assert (∀ u j, ws_then_name name1 u j = ws_then_name name2 u j) as Hws.
  { intros u j. induction j as [|j IH]; simpl;
      unfold literal_ci; rewrite Hl, Hlen; [done|]. by rewrite IH. }
  unfold match_heading.
  induction (span_len is_hash t) as [|k IH]; simpl; [done|].
  by rewrite Hws, IH.
Qed.

Lemma search_from_ext m1 m2 t i :
  (∀ u, m1 u = m2 u) → search_from m1 t i = search_from m2 t i.
Proof.
  intros Hm. revert i; induction t as [|c t IH]; intros i; simpl;
    rewrite Hm; [done|]. by rewrite IH.
Qed.

(** X23. [_extract_section] does not depend on the case of the letters of
    the section name: two names of the same length whose characters are
    pairwise the same up to case, as [re.IGNORECASE] compares them, select
    the same section of every text. *)
Theorem extract_section_name_case (t name1 name2 : text) :
  same_ignoring_case name1 name2 →
  _extract_section t name1 = _extract_section t name2.
Proof.
  intros [Hl _]%same_ignoring_case_lower. unfold _extract_section.
  by rewrite (search_from_ext (match_heading name1) (match_heading name2))
    by (intros u; by apply match_heading_name_case).
Qed.

Lemma extract_section_name_case_witness :
  _extract_section sample_document (T "COMBAT")
  = _extract_section sample_document (T "combat").
Proof.
  apply (extract_section_name_case sample_document (T "COMBAT") (T "combat")).
  repeat constructor.
Defined.

(** ** Where the excerpt lies *)

Lemma piece_of_window (e w t : text) i k :
  piece_of e w → w = take k (drop i t) → i ≤ length t →
  ∃ a b, t = a ++ e ++ b
         ∧ i ≤ length a ∧ length a + length e ≤ i + k.
Proof.
  intros (a' & b' & Hw) Hwin Hi.
  exists (take i t ++ a'), (b' ++ drop k (drop i t)).
  assert (length w ≤ k) as Hlen by (rewrite Hwin, length_take; lia).
  rewrite Hw, !length_app in Hlen.
  split; [|rewrite length_app, length_take; lia].
  rewrite <- (take_drop i t) at 1.
  rewrite <- (take_drop k (drop i t)) at 1.
  rewrite <- Hwin, Hw. by rewrite <- !app_assoc.
Qed.

(** X24. The search looks at the first occurrence only: the excerpt is a
    piece of the text that lies between 300 characters before the start
    and 300 characters behind the end of the first case-insensitive
    occurrence of the term. *)
Theorem search_in_text_near_first_match (term t e : text) :
  _search_in_text term t = Some e →
  ∃ mstart a b,
    first_at (lower term) (lower t) mstart
    ∧ t = a ++ e ++ b
    ∧ mstart - 300 ≤ length a
    ∧ length a + length e ≤ mstart + length term + 300.
Proof.
  intros (ms & w & _ & _ & Hsearch & Hw & ->)%search_in_text_Some.
  unfold search_escaped_ci in Hsearch.
  destruct (find_from (lower term) (lower t) 0) as [i|] eqn:F; [|done].
  injection Hsearch as ->.
  apply find_from_Some in F as (_ & Hfirst). rewrite Nat.sub_0_r in Hfirst.
  assert (ms ≤ length t) as Hms.
  { destruct Hfirst as [[Hle _] _]. by rewrite lower_length in Hle. }
  exists ms.
  destruct (piece_of_window (strip w) (raw_window t ms (ms + length term)) t
              (ms - 300)
              (Nat.min (length t) (ms + length term + 300) - (ms - 300)))
    as (a & b & Ht & Ha & Hb).
  - eapply piece_of_trans; [apply strip_piece_of|done].
  - unfold raw_window, slice, norm_index, len.
    destruct (Z.ltb_spec (Z.max 0 (Z.of_nat ms - 300)) 0); [lia|].
    destruct (Z.ltb_spec
                (Z.min (Z.of_nat (length t))
                   (Z.of_nat (ms + length term) + 300)) 0); [lia|].
    f_equal; [|f_equal]; lia.
  - lia.
  - exists a, b. repeat split; try done; try apply Hfirst; lia.
Qed.

Lemma search_in_text_near_first_match_witness :
  ∃ mstart a b,
    first_at (lower (T "advantage")) (lower sample_core_text) mstart
    ∧ sample_core_text = a ++ T "Advantage means rolling twice." ++ b
    ∧ mstart - 300 ≤ length a
    ∧ length a + length (T "Advantage means rolling twice.")
      ≤ mstart + length (T "advantage") + 300.
Proof.
  apply (search_in_text_near_first_match (T "advantage") sample_core_text).
  reflexivity.
Defined.
